(** * SerBin: a shallow embedding of serbin.h

    The header defines one pair of stream operators per shape
    (fundamental types, smart pointers, strings, the standard containers,
    pairs, tuples and optionals) on top of a [std::fstream].  The
    embedding keeps that structure: a stream model with the sticky
    failure state of the standard streams, a record [Serial T] holding
    the [operator<<] / [operator>>] pair of a type, and one combinator
    per overload of the header.  Opening and closing the file
    ([SerBin::SerBin], [~SerBin]) is left out: a stream is taken as it is
    after [open].

    Platform: 8-bit bytes, little-endian scalars, [size_t] of 8 bytes
    and [int] of 4 bytes (x86-64). *)

From Stdlib Require Import ZArith Lia.
From Stdlib Require Import Init.Byte Strings.Byte.
From stdpp Require Import base list gmap.
From Equations Require Import Equations.

Local Open Scope Z_scope.

(** ** Bytes and the object representation of integers *)

Definition byte_of_Z (z : Z) : byte :=
  default x00 (Byte.of_N (Z.to_N (z `mod` 256))).

Definition Z_of_byte (b : byte) : Z := Z.of_N (Byte.to_N b).

(** The [w] low-order bytes of [z], least significant first. *)
Fixpoint le_bytes (w : nat) (z : Z) : list byte :=
  match w with
  | O => []
  | S w' => byte_of_Z z :: le_bytes w' (z `div` 256)
  end.

Fixpoint le_value (bs : list byte) : Z :=
  match bs with
  | [] => 0
  | b :: bs' => Z_of_byte b + 256 * le_value bs'
  end.

(** Two's complement reading of [w] bytes. *)
Definition le_signed (w : nat) (bs : list byte) : Z :=
  let u := le_value bs in
  if u <? 2 ^ (8 * Z.of_nat w - 1) then u else u - 2 ^ (8 * Z.of_nat w).

#[export] Instance byte_eq_dec : EqDecision byte := Byte.byte_eq_dec.

#[export] Instance byte_countable : Countable byte :=
  inj_countable' Byte.to_N (λ n, default x00 (Byte.of_N n))
    (λ b, f_equal (default x00) (Byte.of_to_N b)).

(** ** The stream held by a [SerBin] object

    [std::fstream] keeps an error state that is sticky: once [failbit] or
    [badbit] is set, every later [read] or [write] returns without touching
    the file.  Nothing in serbin.h calls [clear].

    The stream is taken at the level of its members [write] and [read],
    which are all that serbin.h calls.  Each record carries, besides the
    state the program can observe, a log of what these calls were
    answered: one entry [(requested, transferred)] per call that found
    the stream in good state (the channel calls, below).  An entry with
    [transferred < requested] is an I/O failure, reported by that call.

    The [std::filebuf] between the stream and the file is not modelled.
    What an output stream has accepted reaches the file when the buffer
    is flushed, at the latest by [close]; with the default buffer a
    device that is full is reported by the call that flushes the buffer,
    which need not be the call that hands over the bytes that do not
    fit.  So the place of a write failure among the calls is an input of
    the model, not derived from the size of the file. *)

Definition chanlog := list (nat * nat).

Definition short (e : nat * nat) : Prop := (e.2 < e.1)%nat.

#[export] Instance short_dec e : Decision (short e).
Proof. unfold short. apply _. Defined.

(** [SerBin<std::ios::out>::stream].  [written] is what the stream has
    accepted so far, which is the content of the file after [close] when
    no call failed.  [room] is the number of bytes the stream accepts
    before a [write] comes up short, [None] when no [write] fails; it is
    not the free space of the file (see above). *)
Record ostream := OStream {
  written : list byte;
  room : option nat;
  ofail : bool;
  olog : chanlog }.

(** [SerBin<std::ios::in>::stream]. *)
Record istream := IStream {
  pending : list byte;
  ifail : bool;
  ilog : chanlog }.

(** [stream.write(p, n)] with [bs] the [n] bytes at [p]. *)
Definition stream_write (bs : list byte) (s : ostream) : ostream :=
  if ofail s then s
  else
    let k := match room s with
             | None => length bs
             | Some r => Nat.min r (length bs)
             end in
    {| written := written s ++ take k bs;
       room := (λ r, (r - k)%nat) <$> room s;
       ofail := bool_decide (k < length bs)%nat;
       olog := olog s ++ [(length bs, k)] |}.

(** [stream.read(p, n)] with [dest] the [n] bytes at [p] before the call;
    returns those bytes after the call.  A short read overwrites only what
    was delivered and sets the failure state. *)
Definition stream_read (n : nat) (dest : list byte) (s : istream)
  : list byte * istream :=
  if ifail s then (dest, s)
  else
    let got := take n (pending s) in
    (got ++ drop (length got) dest,
     {| pending := drop n (pending s);
        ifail := bool_decide (length got < n)%nat;
        ilog := ilog s ++ [(n, length got)] |}).

(** A stream opened for writing that has accepted nothing yet ([r] as
    [room] above), and a file opened for reading that holds [bs]. *)
Definition fresh_out (r : option nat) : ostream :=
  {| written := []; room := r; ofail := false; olog := [] |}.

Definition file_in (bs : list byte) : istream :=
  {| pending := bs; ifail := false; ilog := [] |}.

(** ** Writers and readers

    An [operator<<] body is a function on the output stream.  It can run
    into undefined behaviour (dereferencing a null pointer), which is an
    outcome of its own.  An [operator>>] body takes the destination object
    as it is before the call and returns it as it is after. *)

Inductive outcome :=
  | Done (s : ostream)
  | Undefined.

Definition Writer := ostream → outcome.

Definition wret : Writer := Done.

Definition wseq (w1 w2 : Writer) : Writer :=
  λ s, match w1 s with
       | Done s' => w2 s'
       | Undefined => Undefined
       end.

Definition undefined : Writer := λ _, Undefined.

Definition wwrite (bs : list byte) : Writer := λ s, Done (stream_write bs s).

Declare Scope writer_scope.
Delimit Scope writer_scope with W.
Bind Scope writer_scope with Writer.
Notation "w1 ⨾ w2" := (wseq w1 w2)
  (at level 61, left associativity) : writer_scope.

Definition Reader (A : Type) : Type := istream → A * istream.

#[export] Instance reader_ret : MRet Reader := λ A a s, (a, s).

#[export] Instance reader_bind : MBind Reader :=
  λ A B f r s, let (a, s') := r s in f a s'.

Definition rread (n : nat) (dest : list byte) : Reader (list byte) :=
  stream_read n dest.

(** [for (decltype(s) i = 0; i < s; ++i) body] on an object threaded
    through the iterations. *)
Fixpoint rfor {A} (n : nat) (body : A → Reader A) (a : A) : Reader A :=
  match n with
  | O => mret a
  | S n' => a' ← body a; rfor n' body a'
  end.

(** ** Storage that is not initialised

    [bool hasValue;], [decltype(object.size()) s;] and [T value;] for a
    fundamental [T] declare objects whose bytes are whatever the storage
    held.  A read that succeeds overwrites them; after a read that fails
    the decoders go on with what is there.  The model takes these bytes
    from [indeterminate]: it gives such an object a value, no matter
    which, and every theorem holds for all choices. *)

Class Storage := indeterminate : nat → list byte.

(** ** Fundamental types

    [serializeAsPOD<T>] is [std::is_fundamental_v<T>]; for such a type the
    model needs its size and its object representation. *)

Record Pod (T : Type) := {
  sizeof : nat;
  repr : T → list byte;
  unrepr : list byte → T;
  zero : T }.
Arguments sizeof {T}.
Arguments repr {T}.
Arguments unrepr {T}.
Arguments zero {T}.

Definition Pod_bool : Pod bool := {|
  sizeof := 1%nat;
  repr := λ b : bool, [if b then x01 else x00];
  unrepr := λ bs, match bs with
               | b :: _ => negb (Byte.eqb b x00)
               | [] => false
               end;
  zero := false |}.

Definition Pod_char : Pod byte := {|
  sizeof := 1%nat;
  repr := λ c, [c];
  unrepr := λ bs, match bs with c :: _ => c | [] => x00 end;
  zero := x00 |}.

Definition Pod_unsigned (w : nat) : Pod Z := {|
  sizeof := w;
  repr := le_bytes w;
  unrepr := le_value;
  zero := 0 |}.

Definition Pod_signed (w : nat) : Pod Z := {|
  sizeof := w;
  repr := le_bytes w;
  unrepr := le_signed w;
  zero := 0 |}.

Definition Pod_size_t : Pod Z := Pod_unsigned 8.
Definition Pod_int : Pod Z := Pod_signed 4.
Definition Pod_wchar_t : Pod Z := Pod_signed 4.

(** ** The operator pair of a type *)

Record Serial (T : Type) := {
  put : T → Writer;              (* operator<<(writer, object) *)
  get : T → Reader T;            (* operator>>(reader, object) *)
  value_init : T;                (* T() *)
  default_init : T;              (* T x; *)
  as_pod : option (Pod T) }.     (* serializeAsPOD<T> *)
Arguments put {T}.
Arguments get {T}.
Arguments value_init {T}.
Arguments default_init {T}.
Arguments as_pod {T}.

(** Range-based [for] over the elements of a container, writing each
    ([for (auto&& value : object) writer << value;]) or reading into each
    in place ([for (auto&& value : object) reader >> value;]). *)
Fixpoint put_each {T} (S : Serial T) (object : list T) : Writer :=
  match object with
  | [] => wret
  | value :: rest => (put S value ⨾ put_each S rest)%W
  end.

Fixpoint get_each {T} (S : Serial T) (object : list T) : Reader (list T) :=
  match object with
  | [] => mret []
  | value :: rest =>
      value' ← get S value; rest' ← get_each S rest; mret (value' :: rest')
  end.

(** The bytes of [object] when its elements lie one after another in
    memory ([&object[0]], [object.data()]), and the elements that [n]
    slots of such memory hold. *)
Definition flatten {T} (P : Pod T) (object : list T) : list byte :=
  mjoin (repr P <$> object).

Fixpoint unflatten {T} (P : Pod T) (n : nat) (bs : list byte) : list T :=
  match n with
  | O => []
  | S n' => unrepr P (take (sizeof P) bs) :: unflatten P n' (drop (sizeof P) bs)
  end.

(** *** std::tuple (serbin.h 407-429)

    A tuple type is a chain of cells closed by [unit]:
    [std::tuple<A, B, C>] is [A * (B * (C * unit))].  [Slots T] gives, for
    such a type, [std::tuple_size_v] and the two operators composed with
    [std::get<id>]. *)

Record Slots (T : Type) := {
  arity : nat;                       (* std::tuple_size_v<std::tuple<Ts...>> *)
  put_slot : nat → T → Writer;       (* writer << std::get<id>(object) *)
  get_slot : nat → T → Reader T;     (* reader >> std::get<id>(object) *)
  slots_init : T }.
Arguments arity {T}.
Arguments put_slot {T}.
Arguments get_slot {T}.
Arguments slots_init {T}.

Definition Slots_nil : Slots unit := {|
  arity := 0;
  put_slot := λ _ _, wret;
  get_slot := λ _ object, mret object;
  slots_init := () |}.

Definition Slots_cons {A B} (S : Serial A) (R : Slots B) : Slots (A * B) := {|
  arity := Datatypes.S (arity R);
  put_slot := λ id object,
    match id with
    | O => put S object.1
    | Datatypes.S id' => put_slot R id' object.2
    end;
  get_slot := λ id object,
    match id with
    | O => a ← get S object.1; mret (a, object.2)
    | Datatypes.S id' => b ← get_slot R id' object.2; mret (object.1, b)
    end;
  slots_init := (value_init S, slots_init R) |}.

(** The operators recurse on the template parameter [id], from 0, as long
    as [id < std::tuple_size_v]. *)
Equations tuple_put {T} (R : Slots T) (object : T) (id : nat) : Writer
  by wf (arity R - id)%nat lt :=
  tuple_put R object id with decide (id < arity R)%nat => {
    | left _ => (put_slot R id object ⨾ tuple_put R object (Datatypes.S id))%W
    | right _ => wret }.
Next Obligation. lia. Qed.

Equations tuple_get {T} (R : Slots T) (object : T) (id : nat) : Reader T
  by wf (arity R - id)%nat lt :=
  tuple_get R object id with decide (id < arity R)%nat => {
    | left _ => object' ← get_slot R id object;
                tuple_get R object' (Datatypes.S id)
    | right _ => mret object }.
Next Obligation. lia. Qed.

Definition Serial_tuple {T} (R : Slots T) : Serial T := {|
  put := λ object, tuple_put R object 0;
  get := λ object, tuple_get R object 0;
  value_init := slots_init R;
  default_init := slots_init R;
  as_pod := None |}.

(** *** std::pair (serbin.h 336-348) *)

Definition pair_put {T0 T1} (S0 : Serial T0) (S1 : Serial T1)
  (object : T0 * T1) : Writer :=
  (put S0 object.1 ⨾ put S1 object.2)%W.

Definition pair_get {T0 T1} (S0 : Serial T0) (S1 : Serial T1)
  (object : T0 * T1) : Reader (T0 * T1) :=
  first ← get S0 object.1; second ← get S1 object.2; mret (first, second).

Definition Serial_pair {T0 T1} (S0 : Serial T0) (S1 : Serial T1)
  : Serial (T0 * T1) := {|
  put := pair_put S0 S1;
  get := pair_get S0 S1;
  value_init := (value_init S0, value_init S1);
  default_init := (value_init S0, value_init S1);  (* first(), second() *)
  as_pod := None |}.

(** [object.emplace(kv)] on a map with unique keys: an entry whose key is
    taken is dropped. *)
Definition map_emplace `{Countable K} {V} (kv : K * V) (object : gmap K V)
  : gmap K V :=
  match object !! kv.1 with
  | Some _ => object
  | None => <[kv.1 := kv.2]> object
  end.

Section Codecs.
Context {storage : Storage}.

(** *** Fundamental types and opt-in PODs (serbin.h 55-67) *)

Definition pod_put {T} (P : Pod T) (object : T) : Writer :=
  wwrite (repr P object).

Definition pod_get {T} (P : Pod T) (object : T) : Reader T :=
  bs ← rread (sizeof P) (repr P object); mret (unrepr P bs).

Definition Serial_pod {T} (P : Pod T) : Serial T := {|
  put := pod_put P;
  get := pod_get P;
  value_init := zero P;
  default_init := unrepr P (indeterminate (sizeof P));
  as_pod := Some P |}.

Definition Serial_bool := Serial_pod Pod_bool.
Definition Serial_size_t := Serial_pod Pod_size_t.
Definition Serial_int := Serial_pod Pod_int.

(** [*object] on a pointer or an optional: undefined when there is no
    object. *)
Definition deref {T} (object : option T) (k : T → Writer) : Writer :=
  match object with
  | Some x => k x
  | None => undefined
  end.

(** *** Smart pointers (serbin.h 70-114)

    A [std::unique_ptr<T>] or [std::shared_ptr<T>] is modelled by the
    object it owns, if any.  The encoders write [bool(object)] and then
    [*object], without a test in between. *)

Definition unique_ptr_put {T} (S : Serial T) (object : option T) : Writer :=
  (put Serial_bool (bool_decide (is_Some object)) ⨾ deref object (put S))%W.

Definition unique_ptr_get {T} (S : Serial T) (object : option T)
  : Reader (option T) :=
  hasValue ← get Serial_bool (default_init Serial_bool);
  if hasValue : bool then
    x ← get S (value_init S);          (* object = std::make_unique<T>() *)
    mret (Some x)
  else mret object.

Definition Serial_unique_ptr {T} (S : Serial T) : Serial (option T) := {|
  put := unique_ptr_put S;
  get := unique_ptr_get S;
  value_init := None;
  default_init := None;
  as_pod := None |}.

Definition shared_ptr_put {T} (S : Serial T) (object : option T) : Writer :=
  (put Serial_bool (bool_decide (is_Some object)) ⨾ deref object (put S))%W.

Definition shared_ptr_get {T} (S : Serial T) (object : option T)
  : Reader (option T) :=
  hasValue ← get Serial_bool (default_init Serial_bool);
  if hasValue : bool then
    x ← get S (value_init S);          (* object = std::make_shared<T>() *)
    mret (Some x)
  else mret object.

Definition Serial_shared_ptr {T} (S : Serial T) : Serial (option T) := {|
  put := shared_ptr_put S;
  get := shared_ptr_get S;
  value_init := None;
  default_init := None;
  as_pod := None |}.

(** *** std::optional (serbin.h 432-457) *)

Definition optional_put {T} (S : Serial T) (object : option T) : Writer :=
  let hasValue := bool_decide (is_Some object) in
  (put Serial_bool hasValue ⨾
   if hasValue then deref object (put S) else wret)%W.

Definition optional_get {T} (S : Serial T) (object : option T)
  : Reader (option T) :=
  hasValue ← get Serial_bool (default_init Serial_bool);
  if hasValue : bool then
    x ← get S (value_init S);          (* object = T() *)
    mret (Some x)
  else mret object.

Definition Serial_optional {T} (S : Serial T) : Serial (option T) := {|
  put := optional_put S;
  get := optional_get S;
  value_init := None;
  default_init := None;
  as_pod := None |}.

(** [object.size()] as written by [writer << object.size()], and the
    count declared as [decltype(object.size()) s;] and filled by
    [reader >> s]. *)
Definition put_size (n : nat) : Writer := put Serial_size_t (Z.of_nat n).

Definition get_size : Reader nat :=
  s ← get Serial_size_t (default_init Serial_size_t); mret (Z.to_nat s).

(** *** std::basic_string (serbin.h 117-141) *)

Definition basic_string_put {T} (P : Pod T) (object : list T) : Writer :=
  (put_size (length object) ⨾
   if bool_decide (0 < length object)%nat
   then wwrite (flatten P object)
   else wret)%W.

Definition basic_string_get {T} (P : Pod T) (object : list T)
  : Reader (list T) :=
  s ← get_size;
  if bool_decide (0 < s)%nat then
    let object := resize s (zero P) object in
    bs ← rread (length object * sizeof P) (flatten P object);
    mret (unflatten P (length object) bs)
  else mret object.

Definition Serial_basic_string {T} (P : Pod T) : Serial (list T) := {|
  put := basic_string_put P;
  get := basic_string_get P;
  value_init := [];
  default_init := [];
  as_pod := None |}.

(** *** std::vector (serbin.h 144-184) *)

Definition vector_put {T} (S : Serial T) (object : list T) : Writer :=
  (put_size (length object) ⨾
   match as_pod S with
   | Some P =>
       if bool_decide (0 < length object)%nat
       then wwrite (flatten P object)
       else wret
   | None => put_each S object
   end)%W.

Definition vector_get {T} (S : Serial T) (object : list T)
  : Reader (list T) :=
  s ← get_size;
  if bool_decide (s = 0%nat) then mret object
  else
    let object := resize s (value_init S) object in
    match as_pod S with
    | Some P =>
        bs ← rread (sizeof P * s) (flatten P object);
        mret (unflatten P s bs)
    | None => get_each S object
    end.

Definition Serial_vector {T} (S : Serial T) : Serial (list T) := {|
  put := vector_put S;
  get := vector_get S;
  value_init := [];
  default_init := [];
  as_pod := None |}.

(** *** std::array (serbin.h 187-223)

    An object of type [std::array<T, N>] is a list of [N] elements. *)

Definition array_put {T} (S : Serial T) (N : nat) (object : list T) : Writer :=
  if bool_decide (0 < N)%nat then
    match as_pod S with
    | Some P => wwrite (flatten P object)
    | None => put_each S object
    end
  else wret.

Definition array_get {T} (S : Serial T) (N : nat) (object : list T)
  : Reader (list T) :=
  if bool_decide (0 < N)%nat then
    match as_pod S with
    | Some P =>
        bs ← rread (sizeof P * N) (flatten P object);
        mret (unflatten P N bs)
    | None => get_each S object
    end
  else mret object.

Definition Serial_array {T} (S : Serial T) (N : nat) : Serial (list T) := {|
  put := array_put S N;
  get := array_get S N;
  value_init := replicate N (value_init S);
  default_init := replicate N (default_init S);
  as_pod := None |}.

(** *** std::list and std::deque (serbin.h 226-277) *)

Definition list_put {T} (S : Serial T) (object : list T) : Writer :=
  (put_size (length object) ⨾ put_each S object)%W.

(** [object.push_back(T()); reader >> object.back();] *)
Definition push_back_get {T} (S : Serial T) (object : list T)
  : Reader (list T) :=
  back ← get S (value_init S); mret (object ++ [back]).

Definition list_get {T} (S : Serial T) (object : list T) : Reader (list T) :=
  s ← get_size; rfor s (push_back_get S) object.

Definition Serial_list {T} (S : Serial T) : Serial (list T) := {|
  put := list_put S;
  get := list_get S;
  value_init := [];
  default_init := [];
  as_pod := None |}.

Definition deque_put {T} (S : Serial T) (object : list T) : Writer :=
  (put_size (length object) ⨾ put_each S object)%W.

Definition deque_get {T} (S : Serial T) (object : list T) : Reader (list T) :=
  s ← get_size; rfor s (push_back_get S) object.

Definition Serial_deque {T} (S : Serial T) : Serial (list T) := {|
  put := deque_put S;
  get := deque_get S;
  value_init := [];
  default_init := [];
  as_pod := None |}.

(** *** std::set and std::unordered_set (serbin.h 280-333)

    Both are finite sets of distinct elements; [elements] stands for the
    order in which the container is iterated, on which nothing below
    depends.  [gset] tells elements apart by their value.  The standard
    containers do so by [operator<] or by [std::hash] and [operator==],
    which for [std::unique_ptr] and [std::shared_ptr] go by the address
    held and not by the object pointed to: two elements with equal
    payloads behind different pointers are both kept by the container
    and fall together here.  Statements about what a set or a map holds
    after insertions are therefore made for element and key types
    without pointers ([pointer_free] below). *)

Definition set_put `{Countable T} (S : Serial T) (object : gset T) : Writer :=
  (put_size (size object) ⨾ put_each S (elements object))%W.

(** [T value; reader >> value; object.insert(std::move(value));] *)
Definition insert_get `{Countable T} (S : Serial T) (object : gset T)
  : Reader (gset T) :=
  value ← get S (default_init S); mret ({[value]} ∪ object).

Definition set_get `{Countable T} (S : Serial T) (object : gset T)
  : Reader (gset T) :=
  s ← get_size; rfor s (insert_get S) object.

Definition Serial_set `{Countable T} (S : Serial T) : Serial (gset T) := {|
  put := set_put S;
  get := set_get S;
  value_init := ∅;
  default_init := ∅;
  as_pod := None |}.

Definition unordered_set_put `{Countable T} (S : Serial T) (object : gset T)
  : Writer :=
  (put_size (size object) ⨾ put_each S (elements object))%W.

Definition unordered_set_get `{Countable T} (S : Serial T) (object : gset T)
  : Reader (gset T) :=
  s ← get_size; rfor s (insert_get S) object.

Definition Serial_unordered_set `{Countable T} (S : Serial T)
  : Serial (gset T) := {|
  put := unordered_set_put S;
  get := unordered_set_get S;
  value_init := ∅;
  default_init := ∅;
  as_pod := None |}.

(** *** std::map and std::unordered_map (serbin.h 351-404)

    Keys are told apart as the elements of a set are, with the same
    proviso for keys that hold pointers. *)

Definition map_put `{Countable K} {V} (SK : Serial K) (SV : Serial V)
  (object : gmap K V) : Writer :=
  (put_size (size object) ⨾
   put_each (Serial_pair SK SV) (map_to_list object))%W.

(** [std::pair<K, V> kv; reader >> kv; object.emplace(std::move(kv));] *)
Definition emplace_get `{Countable K} {V} (SK : Serial K) (SV : Serial V)
  (object : gmap K V) : Reader (gmap K V) :=
  kv ← get (Serial_pair SK SV) (default_init (Serial_pair SK SV));
  mret (map_emplace kv object).

Definition map_get `{Countable K} {V} (SK : Serial K) (SV : Serial V)
  (object : gmap K V) : Reader (gmap K V) :=
  s ← get_size; rfor s (emplace_get SK SV) object.

Definition Serial_map `{Countable K} {V} (SK : Serial K) (SV : Serial V)
  : Serial (gmap K V) := {|
  put := map_put SK SV;
  get := map_get SK SV;
  value_init := ∅;
  default_init := ∅;
  as_pod := None |}.

Definition unordered_map_put `{Countable K} {V} (SK : Serial K)
  (SV : Serial V) (object : gmap K V) : Writer :=
  (put_size (size object) ⨾
   put_each (Serial_pair SK SV) (map_to_list object))%W.

Definition unordered_map_get `{Countable K} {V} (SK : Serial K)
  (SV : Serial V) (object : gmap K V) : Reader (gmap K V) :=
  s ← get_size; rfor s (emplace_get SK SV) object.

Definition Serial_unordered_map `{Countable K} {V} (SK : Serial K)
  (SV : Serial V) : Serial (gmap K V) := {|
  put := unordered_map_put SK SV;
  get := unordered_map_get SK SV;
  value_init := ∅;
  default_init := ∅;
  as_pod := None |}.

End Codecs.

(** ** The shapes the header covers

    Overload resolution picks, for a static type, one operator pair of the
    header.  [shape T] lists the overloads, indexed by the type of the
    objects, and [serial] is the pair that resolution selects. *)

Inductive fundamental : Type → Type :=
  | f_bool : fundamental bool
  | f_char : fundamental byte
  | f_unsigned (w : nat) : fundamental Z
  | f_signed (w : nat) : fundamental Z.

Definition pod_of {T} (f : fundamental T) : Pod T :=
  match f with
  | f_bool => Pod_bool
  | f_char => Pod_char
  | f_unsigned w => Pod_unsigned w
  | f_signed w => Pod_signed w
  end.

Inductive shape : Type → Type :=
  | Fundamental {T} (f : fundamental T) : shape T
  | StdUniquePtr {T} (e : shape T) : shape (option T)
  | StdSharedPtr {T} (e : shape T) : shape (option T)
  | StdBasicString {T} (f : fundamental T) : shape (list T)
  | StdVector {T} (e : shape T) : shape (list T)
  | StdArray {T} (e : shape T) (N : nat) : shape (list T)
  | StdList {T} (e : shape T) : shape (list T)
  | StdDeque {T} (e : shape T) : shape (list T)
  | StdSet {T} `{Countable T} (e : shape T) : shape (gset T)
  | StdUnorderedSet {T} `{Countable T} (e : shape T) : shape (gset T)
  | StdPair {T0 T1} (e0 : shape T0) (e1 : shape T1) : shape (T0 * T1)
  | StdMap {K V} `{Countable K} (k : shape K) (v : shape V) : shape (gmap K V)
  | StdUnorderedMap {K V} `{Countable K} (k : shape K) (v : shape V)
      : shape (gmap K V)
  | StdTuple {T} (ts : tuple_shape T) : shape T
  | StdOptional {T} (e : shape T) : shape (option T)
with tuple_shape : Type → Type :=
  | TupleEnd : tuple_shape unit
  | TupleSlot {A B} (e : shape A) (ts : tuple_shape B) : tuple_shape (A * B).

Section Dispatch.
Context {storage : Storage}.

Fixpoint serial {T} (sh : shape T) : Serial T :=
  match sh in shape T return Serial T with
  | Fundamental f => Serial_pod (pod_of f)
  | StdUniquePtr e => Serial_unique_ptr (serial e)
  | StdSharedPtr e => Serial_shared_ptr (serial e)
  | StdBasicString f => Serial_basic_string (pod_of f)
  | StdVector e => Serial_vector (serial e)
  | StdArray e N => Serial_array (serial e) N
  | StdList e => Serial_list (serial e)
  | StdDeque e => Serial_deque (serial e)
  | StdSet e => Serial_set (serial e)
  | StdUnorderedSet e => Serial_unordered_set (serial e)
  | StdPair e0 e1 => Serial_pair (serial e0) (serial e1)
  | StdMap k v => Serial_map (serial k) (serial v)
  | StdUnorderedMap k v => Serial_unordered_map (serial k) (serial v)
  | StdTuple ts => Serial_tuple (slots ts)
  | StdOptional e => Serial_optional (serial e)
  end
with slots {T} (ts : tuple_shape T) : Slots T :=
  match ts in tuple_shape T return Slots T with
  | TupleEnd => Slots_nil
  | TupleSlot e ts' => Slots_cons (serial e) (slots ts')
  end.

End Dispatch.

(** ** Values that can be written, and destinations that are fresh

    [encodable sh v]: [v] holds no null pointer, every count fits the
    8-byte size field (as it does for any container in memory), every
    integer lies in the range of its type and every array has its [N]
    elements.  [fresh sh d]: [d] has the value of a default-constructed
    object, up to the content of fundamental objects. *)

Definition in_range {T} (f : fundamental T) : T → Prop :=
  match f in fundamental T return T → Prop with
  | f_bool => λ _, True
  | f_char => λ _, True
  | f_unsigned w => λ z, 0 ≤ z < 2 ^ (8 * Z.of_nat w)
  | f_signed w => λ z, - 2 ^ (8 * Z.of_nat w - 1) ≤ z < 2 ^ (8 * Z.of_nat w - 1)
  end.

Definition fits_size_t (n : nat) : Prop := Z.of_nat n < 2 ^ 64.

Fixpoint encodable {T} (sh : shape T) : T → Prop :=
  match sh in shape T return T → Prop with
  | Fundamental f => in_range f
  | StdUniquePtr e | StdSharedPtr e =>
      λ v, match v with Some x => encodable e x | None => False end
  | StdOptional e =>
      λ v, match v with Some x => encodable e x | None => True end
  | StdBasicString f => λ v, fits_size_t (length v) ∧ Forall (in_range f) v
  | StdVector e | StdList e | StdDeque e =>
      λ v, fits_size_t (length v) ∧ Forall (encodable e) v
  | StdArray e N => λ v, length v = N ∧ Forall (encodable e) v
  | StdSet e | StdUnorderedSet e =>
      λ v, fits_size_t (size v) ∧ set_Forall (encodable e) v
  | StdPair e0 e1 => λ v, encodable e0 v.1 ∧ encodable e1 v.2
  | StdMap k e | StdUnorderedMap k e =>
      λ v, fits_size_t (size v) ∧
           map_Forall (λ key x, encodable k key ∧ encodable e x) v
  | StdTuple ts => encodable_slots ts
  end
with encodable_slots {T} (ts : tuple_shape T) : T → Prop :=
  match ts in tuple_shape T return T → Prop with
  | TupleEnd => λ _, True
  | TupleSlot e ts' => λ v, encodable e v.1 ∧ encodable_slots ts' v.2
  end.

Fixpoint fresh {T} (sh : shape T) : T → Prop :=
  match sh in shape T return T → Prop with
  | Fundamental f => λ _, True
  | StdUniquePtr e | StdSharedPtr e | StdOptional e => λ d, d = None
  | StdBasicString _ | StdVector _ | StdList _ | StdDeque _ => λ d, d = []
  | StdArray e N => λ d, length d = N ∧ Forall (fresh e) d
  | StdSet _ | StdUnorderedSet _ => λ d, d = ∅
  | StdPair e0 e1 => λ d, fresh e0 d.1 ∧ fresh e1 d.2
  | StdMap _ _ | StdUnorderedMap _ _ => λ d, d = ∅
  | StdTuple ts => fresh_slots ts
  end
with fresh_slots {T} (ts : tuple_shape T) : T → Prop :=
  match ts in tuple_shape T return T → Prop with
  | TupleEnd => λ _, True
  | TupleSlot e ts' => λ d, fresh e d.1 ∧ fresh_slots ts' d.2
  end.

(** [null_free sh v]: no [std::unique_ptr] or [std::shared_ptr] inside
    [v] is null. *)
Fixpoint null_free {T} (sh : shape T) : T → Prop :=
  match sh in shape T return T → Prop with
  | Fundamental _ | StdBasicString _ => λ _, True
  | StdUniquePtr e | StdSharedPtr e =>
      λ v, match v with Some x => null_free e x | None => False end
  | StdOptional e =>
      λ v, match v with Some x => null_free e x | None => True end
  | StdVector e | StdArray e _ | StdList e | StdDeque e =>
      Forall (null_free e)
  | StdSet e | StdUnorderedSet e => set_Forall (null_free e)
  | StdPair e0 e1 => λ v, null_free e0 v.1 ∧ null_free e1 v.2
  | StdMap k e | StdUnorderedMap k e =>
      map_Forall (λ key x, null_free k key ∧ null_free e x)
  | StdTuple ts => null_free_slots ts
  end
with null_free_slots {T} (ts : tuple_shape T) : T → Prop :=
  match ts in tuple_shape T return T → Prop with
  | TupleEnd => λ _, True
  | TupleSlot e ts' => λ v, null_free e v.1 ∧ null_free_slots ts' v.2
  end.

(** [pointer_free sh]: no [std::unique_ptr] and no [std::shared_ptr]
    occurs in the type, so that the order and the equality of its objects
    go by value. *)
Fixpoint pointer_free {T} (sh : shape T) : bool :=
  match sh with
  | Fundamental _ | StdBasicString _ => true
  | StdUniquePtr _ | StdSharedPtr _ => false
  | StdVector e | StdArray e _ | StdList e | StdDeque e
  | StdSet e | StdUnorderedSet e | StdOptional e => pointer_free e
  | StdPair e0 e1 | StdMap e0 e1 | StdUnorderedMap e0 e1 =>
      pointer_free e0 && pointer_free e1
  | StdTuple ts => pointer_free_slots ts
  end
with pointer_free_slots {T} (ts : tuple_shape T) : bool :=
  match ts with
  | TupleEnd => true
  | TupleSlot e ts' => pointer_free e && pointer_free_slots ts'
  end.

Scheme shape_mutind := Induction for shape Sort Prop
  with tuple_shape_mutind := Induction for tuple_shape Sort Prop.

(** ** I/O failures and the stream state

    [ext] below is what a run adds to the log of channel calls.  A run
    lets failures surface when the stream it hands back is in failed state
    whenever the stream was in failed state to begin with or one of the
    channel calls of the run came up short. *)

Definition rsurfaces {A} (r : Reader A) : Prop :=
  ∀ s, ∃ ext,
    ilog (r s).2 = ilog s ++ ext
    ∧ (ifail s = true ∨ Exists short ext → ifail (r s).2 = true).

Definition wsurfaces (w : Writer) : Prop :=
  ∀ s s', w s = Done s' →
    ∃ ext,
      olog s' = olog s ++ ext
      ∧ (ofail s = true ∨ Exists short ext → ofail s' = true).

Definition surfacing {T} (S : Serial T) : Prop :=
  (∀ object, wsurfaces (put S object)) ∧ (∀ object, rsurfaces (get S object)).

Definition slots_surfacing {T} (R : Slots T) : Prop :=
  (∀ id object, wsurfaces (put_slot R id object))
  ∧ (∀ id object, rsurfaces (get_slot R id object)).

(** A writer returns when it has a defined outcome on every stream. *)
Definition wreturns (w : Writer) : Prop := ∀ s, ∃ s', w s = Done s'.

Definition returning {T} (S : Serial T) (ok : T → Prop) : Prop :=
  ∀ object, ok object → wreturns (put S object).

Definition slots_returning {T} (R : Slots T) (ok : T → Prop) : Prop :=
  ∀ object, ok object → ∀ id, wreturns (put_slot R id object).

(** ** Streams in good state, and what a run writes or consumes

    [open_out pre l] is an output stream in good state on a file of
    unlimited size that holds [pre]; [open_in bs l] an input stream in
    good state with [bs] still to read.  [emits w bs]: on every such
    output stream the writer returns, in good state, having appended
    exactly [bs].  [yields r bs a]: on every input stream that starts
    with [bs] the reader returns [a], in good state, having consumed
    exactly [bs]. *)

Definition open_out (pre : list byte) (l : chanlog) : ostream :=
  {| written := pre; room := None; ofail := false; olog := l |}.

Definition open_in (bs : list byte) (l : chanlog) : istream :=
  {| pending := bs; ifail := false; ilog := l |}.

Definition emits (w : Writer) (bs : list byte) : Prop :=
  ∀ pre l, ∃ l', w (open_out pre l) = Done (open_out (pre ++ bs) l').

Definition yields {A} (r : Reader A) (bs : list byte) (a : A) : Prop :=
  ∀ rest l, ∃ l', r (open_in (bs ++ rest) l) = (a, open_in rest l').

(** Two output streams that differ at most in the log of channel calls. *)
Definition same_file (s1 s2 : ostream) : Prop :=
  written s1 = written s2 ∧ room s1 = room s2 ∧ ofail s1 = ofail s2.

(** The bytes an encoder leaves in a new file of unlimited size. *)
Definition encoding {T} (S : Serial T) (object : T) : list byte :=
  match put S object (fresh_out None) with
  | Done s => written s
  | Undefined => []
  end.

(** Storage whose indeterminate bytes happen to be zero, for the
    examples. *)
Definition zero_filled : Storage := λ n, replicate n x00.

(** [roundtrips S ok fr]: every value accepted by [ok] is written as some
    run of bytes from which the decoder, started on any destination
    accepted by [fr], gives the value back, consuming exactly that run. *)
Definition roundtrips {T} (S : Serial T) (ok fr : T → Prop) : Prop :=
  ∀ v, ok v →
    ∃ bs, emits (put S v) bs ∧ ∀ d, fr d → yields (get S d) bs v.

(** ** The demonstration data (SerBinTest.cpp 37)

    [vector<optional<int>> data0 = { {}, 456, 7890 };] with the operator
    pair that overload resolution gives it, and the byte stream that the
    specification lists for it. *)

Definition data0 : list (option Z) := [None; Some 456; Some 7890].

Definition Serial_data0 {storage : Storage} : Serial (list (option Z)) :=
  Serial_vector (Serial_optional Serial_int).

Definition shape_data0 : shape (list (option Z)) :=
  StdVector (StdOptional (Fundamental (f_signed 4))).

Definition data0_bytes_listed : list byte :=
  [x03; x00; x00; x00; x00; x00; x00; x00;
   x00;
   xc8; x01; x00; x00; x01;
   x32; x1e; x00; x00; x01].

(** ** Runs seen from the file

    [winert w]: on a stream in failed state the writer returns and hands
    the stream back as it got it.  [rinert r]: likewise for a reader.  [cut_short r bs]: on a file that stops somewhere
    inside [bs] the reader hands the stream back in failed state. *)

Definition winert (w : Writer) : Prop :=
  ∀ s, ofail s = true → w s = Done s.

Definition winert_on {T} (S : Serial T) (ok : T → Prop) : Prop :=
  ∀ object, ok object → winert (put S object).

Definition slots_winert {T} (R : Slots T) (ok : T → Prop) : Prop :=
  ∀ object, ok object → ∀ id, winert (put_slot R id object).

Definition rinert {A} (r : Reader A) : Prop :=
  ∀ s, ifail s = true → (r s).2 = s.

Definition cut_short {A} (r : Reader A) (bs : list byte) : Prop :=
  ∀ p l, p `prefix_of` bs → p ≠ bs → ifail (r (open_in p l)).2 = true.

(** [reads r bs a]: the reader gives [a] from [bs] and fails on every
    file that stops inside [bs].  [decodes S ok fr] extends [roundtrips]
    by that. *)
Definition reads {A} (r : Reader A) (bs : list byte) (a : A) : Prop :=
  yields r bs a ∧ cut_short r bs.

Definition decodes {T} (S : Serial T) (ok fr : T → Prop) : Prop :=
  ∀ v, ok v → ∃ bs, emits (put S v) bs ∧ ∀ d, fr d → reads (get S d) bs v.

(** ** The user-defined type of the demonstration (SerBinTest.cpp 6-28)

    [Custom] owns a [unique_ptr<tuple<float, double, long long>>] that its
    member initialiser sets with [make_unique], and its operators hand
    that member to the operators of the header.  A [float] or [double] is
    taken as the 4 or 8 bytes of its object representation, read as an
    unsigned number.  The class declares no constructor, destructor or
    assignment, so it has the implicit move constructor and move
    assignment (and, for the [unique_ptr] member, no copy): they move
    [data], which leaves the object moved from with a null [data]. *)



Section CustomOperators.
Context {storage : Storage}.






End CustomOperators.








(** The channel calls of a run that returned. *)
Definition olog_of (o : outcome) : chanlog :=
  match o with
  | Done s => olog s
  | Undefined => []
  end.

(** * Properties *)

(** ** Object representations *)

Lemma Z_of_byte_of_Z z : Z_of_byte (byte_of_Z z) = z `mod` 256.
Proof.
  unfold Z_of_byte, byte_of_Z.
  assert (Hz : 0 ≤ z `mod` 256 < 256) by (apply Z.mod_pos_bound; lia).
  destruct (Byte.of_N (Z.to_N (z `mod` 256))) as [b|] eqn:Hb; simpl.
  - apply Byte.to_of_N in Hb. rewrite Hb. lia.
  - apply Byte.of_N_None_iff in Hb. lia.
Qed.

Lemma le_bytes_length w z : length (le_bytes w z) = w.
Proof.
  revert z. induction w as [|w IH]; intros z; simpl; [done|]. by rewrite IH.
Qed.

Lemma le_value_le_bytes w z :
  le_value (le_bytes w z) = z `mod` 2 ^ (8 * Z.of_nat w).
Proof.
  revert z. induction w as [|w IH]; intros z.
  - simpl. by rewrite Z.mod_1_r.
  - cbn [le_bytes le_value]. rewrite Z_of_byte_of_Z, IH.
    replace (8 * Z.of_nat (S w)) with (8 + 8 * Z.of_nat w) by lia.
    rewrite Z.pow_add_r by lia. change (2 ^ 8) with 256.
    rewrite Z.rem_mul_r by lia. reflexivity.
Qed.

Lemma le_value_unsigned w z :
  0 ≤ z < 2 ^ (8 * Z.of_nat w) → le_value (le_bytes w z) = z.
Proof. intros Hz. rewrite le_value_le_bytes. by apply Z.mod_small. Qed.

Lemma le_signed_le_bytes w z :
  - 2 ^ (8 * Z.of_nat w - 1) ≤ z < 2 ^ (8 * Z.of_nat w - 1) →
  le_signed w (le_bytes w z) = z.
Proof.
  intros Hz. unfold le_signed. rewrite le_value_le_bytes.
  destruct w as [|w].
  { simpl in Hz. change (2 ^ (-1)) with 0 in Hz. lia. }
  set (k := 8 * Z.of_nat (S w)) in *.
  assert (Hk : 2 ^ k = 2 * 2 ^ (k - 1)).
  { rewrite <- Z.pow_succ_r by lia. f_equal. lia. }
  assert (Hp : 0 < 2 ^ (k - 1)) by (apply Z.pow_pos_nonneg; lia).
  destruct (decide (0 ≤ z)) as [Hnn|Hneg].
  - rewrite Z.mod_small by lia.
    destruct (Z.ltb_spec z (2 ^ (k - 1))); lia.
  - replace (z `mod` 2 ^ k) with (z + 2 ^ k).
    + destruct (Z.ltb_spec (z + 2 ^ k) (2 ^ (k - 1))); lia.
    + apply Z.mod_unique with (-1); lia.
Qed.

#[global] Arguments le_bytes : simpl never.
#[global] Arguments le_value : simpl never.

Lemma pod_of_length {T} (f : fundamental T) x :
  length (repr (pod_of f) x) = sizeof (pod_of f).
Proof. destruct f; simpl; auto using le_bytes_length. Qed.

Lemma pod_of_unrepr {T} (f : fundamental T) x :
  in_range f x → unrepr (pod_of f) (repr (pod_of f) x) = x.
Proof.
  destruct f; simpl; intros Hx.
  - by destruct x.
  - done.
  - by apply le_value_unsigned.
  - by apply le_signed_le_bytes.
Qed.

(** ** The stream primitives *)

Lemma stream_write_open bs pre l :
  stream_write bs (open_out pre l)
  = open_out (pre ++ bs) (l ++ [(length bs, length bs)]).
Proof.
  unfold stream_write, open_out; simpl.
  rewrite take_ge by lia.
  rewrite bool_decide_eq_false_2 by lia. reflexivity.
Qed.

Lemma stream_read_open n dest bs rest l :
  length bs = n → (length dest ≤ n)%nat →
  stream_read n dest (open_in (bs ++ rest) l)
  = (bs, open_in rest (l ++ [(n, n)])).
Proof.
  intros Hn Hd. unfold stream_read, open_in; simpl.
  rewrite take_app_length' by done. rewrite drop_app_length' by done.
  rewrite drop_ge by lia. rewrite app_nil_r, Hn.
  rewrite bool_decide_eq_false_2 by lia. reflexivity.
Qed.

Lemma stream_read_failed n dest s :
  ifail s = true → stream_read n dest s = (dest, s).
Proof. intros H. unfold stream_read. by rewrite H. Qed.

Lemma stream_write_failed bs s : ofail s = true → stream_write bs s = s.
Proof. intros H. unfold stream_write. by rewrite H. Qed.

(** ** Composition of writers and readers *)

Lemma emits_wret : emits wret [].
Proof. intros pre l. exists l. unfold wret. by rewrite app_nil_r. Qed.

Lemma emits_wwrite bs : emits (wwrite bs) bs.
Proof. intros pre l. eexists. unfold wwrite. by rewrite stream_write_open. Qed.

Lemma emits_wseq w1 w2 bs1 bs2 :
  emits w1 bs1 → emits w2 bs2 → emits (w1 ⨾ w2)%W (bs1 ++ bs2).
Proof.
  intros H1 H2 pre l. destruct (H1 pre l) as [l1 E1].
  destruct (H2 (pre ++ bs1) l1) as [l2 E2].
  exists l2. unfold wseq. rewrite E1, E2. by rewrite app_assoc.
Qed.

Lemma yields_mret {A} (a : A) : yields (mret a) [] a.
Proof. intros rest l. by exists l. Qed.

Lemma yields_bind {A B} (r : Reader A) (f : A → Reader B) bs1 bs2 a b :
  yields r bs1 a → yields (f a) bs2 b → yields (r ≫= f) (bs1 ++ bs2) b.
Proof.
  intros H1 H2 rest l. destruct (H1 (bs2 ++ rest) l) as [l1 E1].
  destruct (H2 rest l1) as [l2 E2]. exists l2.
  unfold mbind, reader_bind. rewrite <- app_assoc, E1. exact E2.
Qed.

Lemma yields_rread n dest bs :
  length bs = n → (length dest ≤ n)%nat → yields (rread n dest) bs bs.
Proof.
  intros Hn Hd rest l. eexists. unfold rread. by apply stream_read_open.
Qed.

Lemma emits_encoding {T} (S : Serial T) object bs :
  emits (put S object) bs → encoding S object = bs.
Proof.
  intros H. unfold encoding. destruct (H [] []) as [l' E].
  change (fresh_out None) with (open_out [] []). by rewrite E.
Qed.

(** ** Flags and counts *)

Section Flags.
Context {storage : Storage}.

Lemma get_flag_absent rest l :
  get Serial_bool (default_init Serial_bool) (open_in (x00 :: rest) l)
  = (false, open_in rest (l ++ [(1, 1)]%nat)).
Proof.
  cbn. unfold pod_get, rread, mbind, mret, reader_bind, reader_ret.
  rewrite (stream_read_open 1 _ [x00] rest l) by (simpl; lia).
  reflexivity.
Qed.

Lemma get_flag_present rest l :
  get Serial_bool (default_init Serial_bool) (open_in (x01 :: rest) l)
  = (true, open_in rest (l ++ [(1, 1)]%nat)).
Proof.
  cbn. unfold pod_get, rread, mbind, mret, reader_bind, reader_ret.
  rewrite (stream_read_open 1 _ [x01] rest l) by (simpl; lia).
  reflexivity.
Qed.

Lemma put_size_open n pre l :
  put_size n (open_out pre l)
  = Done (open_out (pre ++ le_bytes 8 (Z.of_nat n)) (l ++ [(8, 8)]%nat)).
Proof.
  unfold put_size; cbn. unfold pod_put, wwrite. rewrite stream_write_open.
  cbn [repr Pod_size_t Pod_unsigned]. by rewrite le_bytes_length.
Qed.

Lemma get_size_open n rest l :
  fits_size_t n →
  get_size (open_in (le_bytes 8 (Z.of_nat n) ++ rest) l)
  = (n, open_in rest (l ++ [(8, 8)]%nat)).
Proof.
  intros Hn. unfold get_size; cbn.
  unfold pod_get, rread, mbind, mret, reader_bind, reader_ret.
  rewrite stream_read_open.
  - cbn [unrepr sizeof Pod_size_t Pod_unsigned].
    rewrite le_value_unsigned by (unfold fits_size_t in Hn; simpl; lia).
    by rewrite Nat2Z.id.
  - apply le_bytes_length.
  - cbn [repr sizeof Pod_size_t Pod_unsigned]. by rewrite le_bytes_length.
Qed.

Lemma emits_put_size n : emits (put_size n) (le_bytes 8 (Z.of_nat n)).
Proof. intros pre l. eexists. apply put_size_open. Qed.

Lemma yields_get_size n :
  fits_size_t n → yields get_size (le_bytes 8 (Z.of_nat n)) n.
Proof. intros Hn rest l. eexists. by apply get_size_open. Qed.

End Flags.

(** ** Smart pointers *)

(** C2 (what the code does): the encoders of [std::unique_ptr] and
    [std::shared_ptr] write the flag and then evaluate [*object] whatever
    the flag is.  For a null pointer the flag written is 0 and the
    dereference that follows is undefined: on every stream, for every
    payload type, the call has no defined outcome. *)
Theorem null_pointer_put_undefined {storage : Storage} {T} (S : Serial T)
  (s : ostream) :
  put (Serial_unique_ptr S) None s
    = (wwrite [x00] ⨾ deref (@None T) (put S))%W s
  ∧ put (Serial_unique_ptr S) None s = Undefined
  ∧ put (Serial_shared_ptr S) None s
    = (wwrite [x00] ⨾ deref (@None T) (put S))%W s
  ∧ put (Serial_shared_ptr S) None s = Undefined.
Proof. repeat split. Qed.

(** C3 (as stated, refuted): a [std::unique_ptr<int>] that owns 7 still
    owns 7 after decoding a flag byte 0; it is not reset. *)
Lemma unique_ptr_absent_not_reset :
  (get (@Serial_unique_ptr zero_filled _ (@Serial_int zero_filled))
     (Some 7) (file_in [x00])).1 ≠ None.
Proof. vm_compute. discriminate. Qed.

(** C3 (amended): for every payload type and every destination, decoding
    a flag byte 0 into a [std::unique_ptr] or [std::shared_ptr] leaves the
    destination as it was (null if it was null, still owning its object
    otherwise) and consumes no payload byte; decoding a flag byte 1 decodes
    the payload into a value-initialised [T] and makes the destination own
    the result. *)
Theorem pointer_get_flag {storage : Storage} {T} (S : Serial T)
  (object : option T) (rest : list byte) (l : chanlog) :
  let after_flag := open_in rest (l ++ [(1, 1)]%nat) in
  get (Serial_unique_ptr S) object (open_in (x00 :: rest) l)
    = (object, after_flag)
  ∧ get (Serial_shared_ptr S) object (open_in (x00 :: rest) l)
    = (object, after_flag)
  ∧ get (Serial_unique_ptr S) object (open_in (x01 :: rest) l)
    = (Some (get S (value_init S) after_flag).1,
       (get S (value_init S) after_flag).2)
  ∧ get (Serial_shared_ptr S) object (open_in (x01 :: rest) l)
    = (Some (get S (value_init S) after_flag).1,
       (get S (value_init S) after_flag).2).
Proof.
  intros after_flag. subst after_flag.
  cbn [get Serial_unique_ptr Serial_shared_ptr].
  unfold unique_ptr_get, shared_ptr_get, mbind, mret, reader_bind, reader_ret.
  rewrite get_flag_absent, get_flag_present.
  destruct (get S (value_init S) (open_in rest (l ++ [(1%nat, 1%nat)]))).
  done.
Qed.

(** ** std::optional *)

(** C4 (as stated, refuted): an engaged [std::optional<int>] is still
    engaged after decoding a flag byte 0. *)
Lemma optional_absent_not_reset :
  (get (@Serial_optional zero_filled _ (@Serial_int zero_filled))
     (Some 5) (file_in [x00])).1 ≠ None.
Proof. vm_compute. discriminate. Qed.

(** C4 (amended): for every payload type, encoding an absent
    [std::optional] is one [write] of the single byte 0 and nothing else;
    decoding that byte leaves the destination as it was (absent if it was
    absent, engaged with its old payload otherwise) and consumes no further
    byte. *)
Theorem optional_absent {storage : Storage} {T} (S : Serial T) :
  (∀ s, put (Serial_optional S) None s = Done (stream_write [x00] s))
  ∧ (∀ pre l, put (Serial_optional S) None (open_out pre l)
       = Done (open_out (pre ++ [x00]) (l ++ [(1, 1)]%nat)))
  ∧ (∀ object rest l,
       get (Serial_optional S) object (open_in (x00 :: rest) l)
       = (object, open_in rest (l ++ [(1, 1)]%nat))).
Proof.
  split; [|split].
  - reflexivity.
  - intros pre l.
    change (put (Serial_optional S) None (open_out pre l))
      with (Done (stream_write [x00] (open_out pre l))).
    by rewrite stream_write_open.
  - intros object rest l. cbn [get Serial_optional].
    unfold optional_get, mbind, mret, reader_bind, reader_ret.
    by rewrite get_flag_absent.
Qed.

(** ** Containers holding nothing *)

(** C5 (as stated, refuted): a [std::vector<int>] holding 5 and 6 still
    holds them after decoding a count of 0; it is not emptied. *)
Lemma vector_count_zero_not_emptied :
  (get (@Serial_vector zero_filled _ (@Serial_int zero_filled))
     [5; 6] (file_in (le_bytes 8 0))).1 ≠ [].
Proof. vm_compute. discriminate. Qed.

Section Empty.
Context {storage : Storage}.
Context {T : Type} (S : Serial T) (P : Pod T).
Context `{Countable K} (SK : Serial K).

Lemma put_size_only (w : Writer) n s :
  (∀ s', w s' = Done s') →
  (put_size n ⨾ w)%W s = Done (stream_write (le_bytes 8 (Z.of_nat n)) s).
Proof. intros Hw. unfold wseq, put_size. cbn. by rewrite Hw. Qed.

Lemma put_empty s :
  let count0 := Done (stream_write (le_bytes 8 0) s) in
  put (Serial_basic_string P) [] s = count0
  ∧ put (Serial_vector S) [] s = count0
  ∧ put (Serial_list S) [] s = count0
  ∧ put (Serial_deque S) [] s = count0
  ∧ put (Serial_set SK) ∅ s = count0
  ∧ put (Serial_unordered_set SK) ∅ s = count0
  ∧ put (Serial_map SK S) ∅ s = count0
  ∧ put (Serial_unordered_map SK S) ∅ s = count0.
Proof.
  intros count0. subst count0.
  cbn [put Serial_basic_string Serial_vector Serial_list Serial_deque
       Serial_set Serial_unordered_set Serial_map Serial_unordered_map].
  unfold basic_string_put, vector_put, list_put, deque_put, set_put,
    unordered_set_put, map_put, unordered_map_put.
  rewrite size_empty, elements_empty, map_size_empty, map_to_list_empty.
  cbn [length put_each].
  repeat split; try (by apply (put_size_only _ 0%nat)).
  destruct (as_pod S); by apply (put_size_only _ 0%nat).
Qed.

Lemma get_size_zero rest l :
  get_size (open_in (le_bytes 8 0 ++ rest) l)
  = (0%nat, open_in rest (l ++ [(8, 8)]%nat)).
Proof. apply (get_size_open 0). unfold fits_size_t. simpl. lia. Qed.

Lemma get_count_zero rest l :
  let after_count := open_in rest (l ++ [(8, 8)]%nat) in
  let counted := open_in (le_bytes 8 0 ++ rest) l in
  (∀ object, get (Serial_basic_string P) object counted = (object, after_count))
  ∧ (∀ object, get (Serial_vector S) object counted = (object, after_count))
  ∧ (∀ object, get (Serial_list S) object counted = (object, after_count))
  ∧ (∀ object, get (Serial_deque S) object counted = (object, after_count))
  ∧ (∀ object, get (Serial_set SK) object counted = (object, after_count))
  ∧ (∀ object,
       get (Serial_unordered_set SK) object counted = (object, after_count))
  ∧ (∀ object, get (Serial_map SK S) object counted = (object, after_count))
  ∧ (∀ object,
       get (Serial_unordered_map SK S) object counted = (object, after_count)).
Proof.
  intros after_count counted. subst after_count counted.
  cbn [get Serial_basic_string Serial_vector Serial_list Serial_deque
       Serial_set Serial_unordered_set Serial_map Serial_unordered_map].
  unfold basic_string_get, vector_get, list_get, deque_get, set_get,
    unordered_set_get, map_get, unordered_map_get.
  unfold mbind, reader_bind. rewrite get_size_zero.
  repeat split; done.
Qed.

End Empty.

(** C5 (amended): for every element type, encoding an empty
    [std::basic_string], [std::vector], [std::list], [std::deque],
    [std::set], [std::unordered_set], [std::map] or [std::unordered_map]
    is one [write] of the 8-byte count 0 and nothing else; decoding a count
    of 0 leaves the destination as it was (empty if it was empty, with its
    old elements otherwise) and consumes no byte after the count. *)
Theorem empty_container {storage : Storage} {T} (S : Serial T) (P : Pod T)
  `{Countable K} (SK : Serial K) :
  le_bytes 8 0 = replicate 8 x00
  ∧ (∀ s,
       let count0 := Done (stream_write (le_bytes 8 0) s) in
       put (Serial_basic_string P) [] s = count0
       ∧ put (Serial_vector S) [] s = count0
       ∧ put (Serial_list S) [] s = count0
       ∧ put (Serial_deque S) [] s = count0
       ∧ put (Serial_set SK) ∅ s = count0
       ∧ put (Serial_unordered_set SK) ∅ s = count0
       ∧ put (Serial_map SK S) ∅ s = count0
       ∧ put (Serial_unordered_map SK S) ∅ s = count0)
  ∧ (∀ rest l,
       let after_count := open_in rest (l ++ [(8, 8)]%nat) in
       let counted := open_in (le_bytes 8 0 ++ rest) l in
       (∀ object,
          get (Serial_basic_string P) object counted = (object, after_count))
       ∧ (∀ object, get (Serial_vector S) object counted = (object, after_count))
       ∧ (∀ object, get (Serial_list S) object counted = (object, after_count))
       ∧ (∀ object, get (Serial_deque S) object counted = (object, after_count))
       ∧ (∀ object, get (Serial_set SK) object counted = (object, after_count))
       ∧ (∀ object,
            get (Serial_unordered_set SK) object counted
            = (object, after_count))
       ∧ (∀ object,
            get (Serial_map SK S) object counted = (object, after_count))
       ∧ (∀ object,
            get (Serial_unordered_map SK S) object counted
            = (object, after_count))).
Proof.
  split; [by vm_compute|]. split.
  - intros s. apply put_empty.
  - intros rest l. apply get_count_zero.
Qed.

(** ** The bulk path of std::vector *)

Lemma same_file_refl s : same_file s s.
Proof. by repeat split. Qed.

Lemma same_file_trans s1 s2 s3 :
  same_file s1 s2 → same_file s2 s3 → same_file s1 s3.
Proof. intros (?&?&?) (?&?&?). repeat split; congruence. Qed.

Lemma stream_write_same bs s1 s2 :
  same_file s1 s2 → same_file (stream_write bs s1) (stream_write bs s2).
Proof.
  destruct s1 as [w1 r1 f1 l1], s2 as [w2 r2 f2 l2].
  intros (Hw & Hr & Hf); simpl in *; subst.
  unfold stream_write; simpl. destruct f2; by repeat split.
Qed.

Lemma stream_write_nil s : same_file (stream_write [] s) s.
Proof.
  destruct s as [w r f l]. unfold stream_write; simpl.
  destruct f; [apply same_file_refl|].
  repeat split; simpl.
  - rewrite take_nil. apply app_nil_r.
  - destruct r as [r|]; simpl; [|done]. rewrite Nat.min_0_r. f_equal. lia.
Qed.

(** One [write] of two runs of bytes leaves the file as two [write]s do. *)
Lemma stream_write_app a b s :
  same_file (stream_write (a ++ b) s) (stream_write b (stream_write a s)).
Proof.
  destruct s as [w r f l]. unfold stream_write at 1 3; simpl.
  destruct f; simpl; [apply same_file_refl|].
  unfold stream_write, same_file; simpl.
  destruct r as [r|]; simpl.
  - rewrite length_app.
    destruct (decide (r < length a)%nat) as [Hlt|Hge].
    + rewrite (bool_decide_eq_true_2 (_ < length a)%nat) by lia. simpl.
      rewrite !(Nat.min_l r) by lia. rewrite take_app_le by lia.
      repeat split. apply bool_decide_eq_true_2. lia.
    + rewrite (bool_decide_eq_false_2 (_ < length a)%nat) by lia. simpl.
      rewrite (Nat.min_r r (length a)) by lia.
      rewrite (take_ge a) by lia. rewrite take_app_ge by lia.
      rewrite <- app_assoc.
      replace (Nat.min r (length a + length b) - length a)%nat
        with (Nat.min (r - length a) (length b)) by lia.
      repeat split.
      * f_equal. lia.
      * apply bool_decide_ext. lia.
  - rewrite (bool_decide_eq_false_2 (_ < length a)%nat) by lia. simpl.
    rewrite length_app, !take_ge, app_assoc by (rewrite ?length_app; lia).
    repeat split. apply bool_decide_ext. lia.
Qed.

(** The element-wise loop on a fundamental element type is a run of
    [write]s, one per element. *)
Lemma put_each_pod {storage : Storage} {T} (P : Pod T) (v : list T) s :
  put_each (Serial_pod P) v s
  = Done (foldl (λ s' x, stream_write (repr P x) s') s v).
Proof.
  revert s. induction v as [|x v IH]; intros s; [done|].
  cbn [put_each foldl]. unfold wseq. cbn [put Serial_pod].
  unfold pod_put, wwrite. apply IH.
Qed.

Lemma bulk_write_each {T} (P : Pod T) (v : list T) s :
  same_file (stream_write (flatten P v) s)
    (foldl (λ s' x, stream_write (repr P x) s') s v).
Proof.
  revert s. induction v as [|x v IH]; intros s.
  - apply stream_write_nil.
  - unfold flatten. cbn [fmap list_fmap mjoin list_join foldl].
    eapply same_file_trans; [apply stream_write_app|]. apply IH.
Qed.

Lemma encoding_pod {storage : Storage} {T} (P : Pod T) (x : T) :
  encoding (Serial_pod P) x = repr P x.
Proof. apply emits_encoding. apply emits_wwrite. Qed.

(** C6: for every fundamental element type and every [std::vector] of it,
    the vector encoder leaves the file exactly as the count followed by
    the element-wise loop [for (auto&& value : object) writer << value;]
    would, whatever the state of the stream; in a new file the bytes after
    the 8-byte count are the scalar encodings of the elements, one after
    another in element order. *)
Theorem vector_bulk_is_elementwise {storage : Storage} {T} (P : Pod T)
  (v : list T) :
  (∀ s, ∃ s1 s2,
     put (Serial_vector (Serial_pod P)) v s = Done s1
     ∧ (put_size (length v) ⨾ put_each (Serial_pod P) v)%W s = Done s2
     ∧ same_file s1 s2)
  ∧ encoding (Serial_vector (Serial_pod P)) v
    = le_bytes 8 (Z.of_nat (length v)) ++ mjoin (encoding (Serial_pod P) <$> v).
Proof.
  split.
  - intros s. cbn [put Serial_vector]. unfold vector_put.
    cbn [as_pod Serial_pod]. unfold wseq, put_size.
    cbn [put Serial_size_t Serial_pod]. unfold pod_put at 1 2, wwrite.
    set (s0 := stream_write _ s). rewrite put_each_pod.
    destruct v as [|x v].
    + exists s0, s0. repeat split.
    + rewrite bool_decide_eq_true_2 by (simpl; lia).
      eexists _, _. split; [reflexivity|]. split; [reflexivity|].
      apply bulk_write_each.
  - apply emits_encoding. cbn [put Serial_vector]. unfold vector_put.
    cbn [as_pod Serial_pod].
    apply emits_wseq; [apply emits_put_size|].
    replace (mjoin (encoding (Serial_pod P) <$> v)) with (flatten P v).
    + case_bool_decide as Hv; [apply emits_wwrite|].
      destruct v; [apply emits_wret | simpl in Hv; lia].
    + unfold flatten. f_equal. apply list_fmap_ext. intros _ x _.
      symmetry. apply encoding_pod.
Qed.

(** ** The demonstration data *)

(** C7 (as stated, refuted): the bytes written for [data0] are not the
    listed ones. *)
Lemma data0_bytes_not_as_listed :
  encoding (@Serial_data0 zero_filled) data0 ≠ data0_bytes_listed.
Proof. vm_compute. discriminate. Qed.

(** C7 (amended): with an 8-byte [size_t] and a 4-byte [int], encoding
    the [std::vector<std::optional<int>>] value [absent, 456, 7890] into a
    new file writes 03 00 00 00 00 00 00 00 (count 3), then 00 (absent),
    then 01 (present) C8 01 00 00 (456), then 01 (present) D2 1E 00 00
    (7890): every flag comes before its payload. *)
Theorem data0_bytes {storage : Storage} :
  put Serial_data0 data0 (fresh_out None)
  = Done {| written :=
              [x03; x00; x00; x00; x00; x00; x00; x00;
               x00;
               x01; xc8; x01; x00; x00;
               x01; xd2; x1e; x00; x00];
            room := None;
            ofail := false;
            olog := [(8, 8); (1, 1); (1, 1); (4, 4); (1, 1); (4, 4)]%nat |}.
Proof. vm_compute. reflexivity. Qed.

(** ** Pairs and tuples *)

Lemma tuple_put_step {T} (R : Slots T) (object : T) (id : nat) s :
  tuple_put R object id s
  = if decide (id < arity R)%nat
    then (put_slot R id object ⨾ tuple_put R object (S id))%W s
    else Done s.
Proof.
  rewrite tuple_put_equation_1. unfold tuple_put_unfold_clause_1.
  by destruct (decide _).
Qed.

Lemma tuple_get_step {T} (R : Slots T) (object : T) (id : nat) s :
  tuple_get R object id s
  = if decide (id < arity R)%nat
    then (object' ← get_slot R id object; tuple_get R object' (S id)) s
    else (object, s).
Proof.
  rewrite tuple_get_equation_1. unfold tuple_get_unfold_clause_1.
  by destruct (decide _).
Qed.

(** Slot [id + 1] of a chain is slot [id] of its tail: from index
    [id + 1] on, the recursion over the chain runs as the recursion over
    the tail from [id] on. *)
Lemma tuple_put_shift {A B} (S : Serial A) (R : Slots B) a t id s :
  tuple_put (Slots_cons S R) (a, t) (Datatypes.S id) s = tuple_put R t id s.
Proof.
  remember (arity R - id)%nat as n eqn:Hn.
  revert id s Hn. induction n as [|n IH]; intros id s Hn.
  - rewrite !tuple_put_step. cbn [arity Slots_cons].
    rewrite !decide_False by lia. reflexivity.
  - rewrite (tuple_put_step (Slots_cons S R)), (tuple_put_step R).
    cbn [arity Slots_cons].
    rewrite !decide_True by lia.
    unfold wseq. cbn [put_slot Slots_cons snd].
    destruct (put_slot R id t s) as [s'|]; [|done].
    apply IH. lia.
Qed.

Lemma tuple_get_shift {A B} (S : Serial A) (R : Slots B) a t id s :
  tuple_get (Slots_cons S R) (a, t) (Datatypes.S id) s
  = ((a, (tuple_get R t id s).1), (tuple_get R t id s).2).
Proof.
  remember (arity R - id)%nat as n eqn:Hn.
  revert t id s Hn. induction n as [|n IH]; intros t id s Hn.
  - rewrite !tuple_get_step. cbn [arity Slots_cons].
    rewrite !decide_False by lia. reflexivity.
  - rewrite (tuple_get_step (Slots_cons S R)), (tuple_get_step R).
    cbn [arity Slots_cons].
    rewrite !decide_True by lia.
    unfold mbind, mret, reader_bind, reader_ret.
    cbn [get_slot Slots_cons fst snd].
    unfold mbind, mret, reader_bind, reader_ret.
    destruct (get_slot R id t s) as [b s'].
    apply IH. lia.
Qed.

Lemma tuple_put_cons {A B} (S : Serial A) (R : Slots B) a t s :
  put (Serial_tuple (Slots_cons S R)) (a, t) s
  = (put S a ⨾ put (Serial_tuple R) t)%W s.
Proof.
  cbn [put Serial_tuple]. rewrite tuple_put_step.
  cbn [arity Slots_cons]. rewrite decide_True by lia.
  unfold wseq. cbn [put_slot Slots_cons fst].
  destruct (put S a s) as [s'|]; [|done]. apply tuple_put_shift.
Qed.

Lemma tuple_get_cons {A B} (S : Serial A) (R : Slots B) a t s :
  get (Serial_tuple (Slots_cons S R)) (a, t) s
  = (a' ← get S a; t' ← get (Serial_tuple R) t; mret (a', t')) s.
Proof.
  cbn [get Serial_tuple]. rewrite tuple_get_step.
  cbn [arity Slots_cons]. rewrite decide_True by lia.
  unfold mbind, mret, reader_bind, reader_ret.
  cbn [get_slot Slots_cons fst snd].
  unfold mbind, mret, reader_bind, reader_ret.
  destruct (get S a s) as [a' s']. rewrite tuple_get_shift.
  by destruct (tuple_get R t 0 s').
Qed.

Lemma emits_ext (w1 w2 : Writer) bs :
  (∀ s, w1 s = w2 s) → emits w2 bs → emits w1 bs.
Proof. intros E H pre l. rewrite E. apply H. Qed.

Lemma yields_ext {A} (r1 r2 : Reader A) bs a :
  (∀ s, r1 s = r2 s) → yields r2 bs a → yields r1 bs a.
Proof. intros E H rest l. rewrite E. apply H. Qed.

Lemma emits_pair {T0 T1} (S0 : Serial T0) (S1 : Serial T1) a b bs0 bs1 :
  emits (put S0 a) bs0 → emits (put S1 b) bs1 →
  emits (put (Serial_pair S0 S1) (a, b)) (bs0 ++ bs1).
Proof. intros H0 H1. by apply emits_wseq. Qed.

Lemma yields_pair {T0 T1} (S0 : Serial T0) (S1 : Serial T1)
  d0 d1 a b bs0 bs1 :
  yields (get S0 d0) bs0 a → yields (get S1 d1) bs1 b →
  yields (get (Serial_pair S0 S1) (d0, d1)) (bs0 ++ bs1) (a, b).
Proof.
  intros H0 H1. cbn [get Serial_pair]. unfold pair_get. cbn [fst snd].
  eapply yields_bind; [exact H0|].
  rewrite <- (app_nil_r bs1). eapply yields_bind; [exact H1|].
  apply yields_mret.
Qed.

Lemma emits_tuple_cons {A B} (S : Serial A) (R : Slots B) a t bs0 bs1 :
  emits (put S a) bs0 → emits (put (Serial_tuple R) t) bs1 →
  emits (put (Serial_tuple (Slots_cons S R)) (a, t)) (bs0 ++ bs1).
Proof.
  intros H0 H1. eapply emits_ext; [apply tuple_put_cons|].
  by apply emits_wseq.
Qed.

Lemma yields_tuple_cons {A B} (S : Serial A) (R : Slots B)
  d dt a t bs0 bs1 :
  yields (get S d) bs0 a → yields (get (Serial_tuple R) dt) bs1 t →
  yields (get (Serial_tuple (Slots_cons S R)) (d, dt)) (bs0 ++ bs1) (a, t).
Proof.
  intros H0 H1. eapply yields_ext; [apply tuple_get_cons|].
  eapply yields_bind; [exact H0|].
  rewrite <- (app_nil_r bs1). eapply yields_bind; [exact H1|].
  apply yields_mret.
Qed.

Lemma emits_tuple_nil : emits (put (Serial_tuple Slots_nil) ()) [].
Proof.
  eapply emits_ext; [|apply emits_wret].
  intros s. cbn [put Serial_tuple]. by rewrite tuple_put_step.
Qed.

Lemma yields_tuple_nil : yields (get (Serial_tuple Slots_nil) ()) [] ().
Proof.
  eapply yields_ext; [|apply yields_mret].
  intros s. cbn [get Serial_tuple]. by rewrite tuple_get_step.
Qed.

(** C9: a [std::pair] is written and read first member first, as the
    sequence of the two member operators; a [std::tuple] is written and
    read slot 0 first, as the operator of its first slot followed by the
    recursion over the remaining slots, and an empty tuple writes and reads
    nothing.  So the bytes of a product are the bytes of its slots, one
    after another in slot order, with nothing before, between or after
    them.  The recursion on the slot index [id] takes one step while
    [id < N] and returns without touching the stream once [id] has
    reached [N]. *)
Theorem product_layout {T0 T1 A B} (S0 : Serial T0) (S1 : Serial T1)
  (S : Serial A) (R : Slots B) :
  (∀ a b s, put (Serial_pair S0 S1) (a, b) s = (put S0 a ⨾ put S1 b)%W s)
  ∧ (∀ a b s,
       get (Serial_pair S0 S1) (a, b) s
       = (a' ← get S0 a; b' ← get S1 b; mret (a', b')) s)
  ∧ (∀ a t s,
       put (Serial_tuple (Slots_cons S R)) (a, t) s
       = (put S a ⨾ put (Serial_tuple R) t)%W s)
  ∧ (∀ a t s,
       get (Serial_tuple (Slots_cons S R)) (a, t) s
       = (a' ← get S a; t' ← get (Serial_tuple R) t; mret (a', t')) s)
  ∧ (∀ a b bs0 bs1,
       emits (put S0 a) bs0 → emits (put S1 b) bs1 →
       emits (put (Serial_pair S0 S1) (a, b)) (bs0 ++ bs1))
  ∧ (∀ d0 d1 a b bs0 bs1,
       yields (get S0 d0) bs0 a → yields (get S1 d1) bs1 b →
       yields (get (Serial_pair S0 S1) (d0, d1)) (bs0 ++ bs1) (a, b))
  ∧ emits (put (Serial_tuple Slots_nil) ()) []
  ∧ yields (get (Serial_tuple Slots_nil) ()) [] ()
  ∧ (∀ a t bs0 bs1,
       emits (put S a) bs0 → emits (put (Serial_tuple R) t) bs1 →
       emits (put (Serial_tuple (Slots_cons S R)) (a, t)) (bs0 ++ bs1))
  ∧ (∀ d dt a t bs0 bs1,
       yields (get S d) bs0 a → yields (get (Serial_tuple R) dt) bs1 t →
       yields (get (Serial_tuple (Slots_cons S R)) (d, dt)) (bs0 ++ bs1) (a, t))
  ∧ (∀ t id so si,
       (id < arity R)%nat →
       tuple_put R t id so
       = (put_slot R id t ⨾ tuple_put R t (Datatypes.S id))%W so
       ∧ tuple_get R t id si
         = (t' ← get_slot R id t; tuple_get R t' (Datatypes.S id)) si)
  ∧ (∀ t id so si,
       (arity R ≤ id)%nat →
       tuple_put R t id so = Done so ∧ tuple_get R t id si = (t, si)).
Proof.
  repeat apply conj.
  - done.
  - done.
  - apply tuple_put_cons.
  - apply tuple_get_cons.
  - apply emits_pair.
  - apply yields_pair.
  - apply emits_tuple_nil.
  - apply yields_tuple_nil.
  - apply emits_tuple_cons.
  - apply yields_tuple_cons.
  - intros t id so si Hid. rewrite tuple_put_step, tuple_get_step.
    by rewrite !decide_True by done.
  - intros t id so si Hid. rewrite tuple_put_step, tuple_get_step.
    by rewrite !decide_False by lia.
Qed.

(** A product of an [int], a [bool] and nothing else: the bytes are
    those of 258, then the byte of [true]. *)
Lemma product_layout_witness :
  emits (put (@Serial_int zero_filled) 258) [x02; x01; x00; x00]
  ∧ emits (put (@Serial_bool zero_filled) true) [x01]
  ∧ emits (put (Serial_pair (@Serial_int zero_filled)
                  (@Serial_bool zero_filled)) (258, true))
      ([x02; x01; x00; x00] ++ [x01])
  ∧ emits (put (Serial_tuple
                  (Slots_cons (@Serial_int zero_filled)
                     (Slots_cons (@Serial_bool zero_filled) Slots_nil)))
             (258, (true, ())))
      ([x02; x01; x00; x00] ++ [x01] ++ []).
Proof.
  pose proof (emits_wwrite (le_bytes 4 258)) as Hi.
  pose proof (emits_wwrite [x01]) as Hb.
  split; [exact Hi|]. split; [exact Hb|]. split.
  - pose proof (product_layout (@Serial_int zero_filled)
                  (@Serial_bool zero_filled) (@Serial_bool zero_filled)
                  Slots_nil) as (_ & _ & _ & _ & Hpair & _).
    exact (Hpair 258 true _ _ Hi Hb).
  - pose proof (product_layout (@Serial_int zero_filled)
                  (@Serial_bool zero_filled) (@Serial_bool zero_filled)
                  Slots_nil)
      as (_ & _ & _ & _ & _ & _ & Hnil & _ & Hcons & _).
    pose proof (product_layout (@Serial_int zero_filled)
                  (@Serial_bool zero_filled) (@Serial_int zero_filled)
                  (Slots_cons (@Serial_bool zero_filled) Slots_nil))
      as (_ & _ & _ & _ & _ & _ & _ & _ & Hcons' & _).
    exact (Hcons' 258 (true, ()) _ _ Hi (Hcons true () _ _ Hb Hnil)).
Defined.

(** ** I/O failures *)

Lemma rsurfaces_mret {A} (a : A) : rsurfaces (mret a).
Proof.
  intros s. exists []. cbn. rewrite app_nil_r. split; [done|].
  intros [?|H]; [done|]. by apply Exists_nil in H.
Qed.

Lemma rsurfaces_bind {A B} (r : Reader A) (f : A → Reader B) :
  rsurfaces r → (∀ a, rsurfaces (f a)) → rsurfaces (r ≫= f).
Proof.
  intros Hr Hf s. unfold mbind, reader_bind.
  destruct (Hr s) as (ext1 & Hl1 & Hf1).
  destruct (r s) as [a s1]; cbn [snd] in *.
  destruct (Hf a s1) as (ext2 & Hl2 & Hf2).
  exists (ext1 ++ ext2). split.
  - by rewrite Hl2, Hl1, app_assoc.
  - intros [Hs|Hex]; apply Hf2.
    + left. apply Hf1. by left.
    + apply Exists_app in Hex as [H1|H2]; [left; apply Hf1; by right|by right].
Qed.

Lemma rsurfaces_rread n dest : rsurfaces (rread n dest).
Proof.
  intros s. unfold rread, stream_read.
  destruct (ifail s) eqn:Hs; cbn [snd].
  - exists []. rewrite app_nil_r. split; [done|]. by intros _.
  - eexists. split; [reflexivity|]. cbn [ifail].
    intros [?|Hex]; [done|].
    apply Exists_cons in Hex as [Hsh|Hnil]; [|by apply Exists_nil in Hnil].
    by apply bool_decide_eq_true_2.
Qed.

Lemma rsurfaces_rfor {A} n (body : A → Reader A) a :
  (∀ a', rsurfaces (body a')) → rsurfaces (rfor n body a).
Proof.
  intros Hb. revert a. induction n as [|n IH]; intros a; cbn [rfor].
  - apply rsurfaces_mret.
  - apply rsurfaces_bind; [apply Hb|]. intros a'. apply IH.
Qed.

Lemma rsurfaces_get_each {T} (S : Serial T) (object : list T) :
  (∀ x, rsurfaces (get S x)) → rsurfaces (get_each S object).
Proof.
  intros HS. induction object as [|x object IH]; cbn [get_each].
  - apply rsurfaces_mret.
  - apply rsurfaces_bind; [apply HS|]. intros x'.
    apply rsurfaces_bind; [apply IH|]. intros rest'. apply rsurfaces_mret.
Qed.

Lemma wsurfaces_wret : wsurfaces wret.
Proof.
  intros s s' [= <-]. exists []. rewrite app_nil_r. split; [done|].
  intros [?|H]; [done|]. by apply Exists_nil in H.
Qed.

Lemma wsurfaces_undefined : wsurfaces undefined.
Proof. by intros s s' ?. Qed.

Lemma wsurfaces_wseq (w1 w2 : Writer) :
  wsurfaces w1 → wsurfaces w2 → wsurfaces (w1 ⨾ w2)%W.
Proof.
  intros H1 H2 s s'. unfold wseq.
  destruct (w1 s) as [s1|] eqn:E1; [|done]. intros E2.
  destruct (H1 s s1 E1) as (ext1 & Hl1 & Hf1).
  destruct (H2 s1 s' E2) as (ext2 & Hl2 & Hf2).
  exists (ext1 ++ ext2). split.
  - by rewrite Hl2, Hl1, app_assoc.
  - intros [Hs|Hex]; apply Hf2.
    + left. apply Hf1. by left.
    + apply Exists_app in Hex as [Ha|Hb]; [left; apply Hf1; by right|by right].
Qed.

Lemma wsurfaces_wwrite bs : wsurfaces (wwrite bs).
Proof.
  intros s s' [= <-]. unfold stream_write.
  destruct (ofail s) eqn:Hs.
  - exists []. rewrite app_nil_r. split; [done|]. by intros _.
  - eexists. split; [reflexivity|]. cbn [ofail].
    intros [?|Hex]; [done|].
    apply Exists_cons in Hex as [Hsh|Hnil]; [|by apply Exists_nil in Hnil].
    by apply bool_decide_eq_true_2.
Qed.

Lemma wsurfaces_deref {T} (object : option T) (k : T → Writer) :
  (∀ x, wsurfaces (k x)) → wsurfaces (deref object k).
Proof. intros Hk. destruct object; [apply Hk|apply wsurfaces_undefined]. Qed.

Lemma wsurfaces_put_each {T} (S : Serial T) (object : list T) :
  (∀ x, wsurfaces (put S x)) → wsurfaces (put_each S object).
Proof.
  intros HS. induction object as [|x object IH]; cbn [put_each].
  - apply wsurfaces_wret.
  - apply wsurfaces_wseq; [apply HS|apply IH].
Qed.

Lemma wsurfaces_tuple_put {T} (R : Slots T) object id :
  slots_surfacing R → wsurfaces (tuple_put R object id).
Proof.
  intros [HR _]. remember (arity R - id)%nat as n eqn:Hn.
  revert id Hn. induction n as [|n IH]; intros id Hn.
  - intros s s'. rewrite tuple_put_step, decide_False by lia.
    apply wsurfaces_wret.
  - intros s s'. rewrite tuple_put_step, decide_True by lia.
    apply wsurfaces_wseq; [apply HR|]. apply IH. lia.
Qed.

Lemma rsurfaces_tuple_get {T} (R : Slots T) object id :
  slots_surfacing R → rsurfaces (tuple_get R object id).
Proof.
  intros [_ HR]. remember (arity R - id)%nat as n eqn:Hn.
  revert object id Hn. induction n as [|n IH]; intros object id Hn.
  - intros s. rewrite tuple_get_step, decide_False by lia.
    apply (rsurfaces_mret object).
  - intros s. rewrite tuple_get_step, decide_True by lia.
    apply rsurfaces_bind; [apply HR|]. intros object'. apply IH. lia.
Qed.

Ltac surf_step :=
  lazymatch goal with
  | |- rsurfaces (mret _) => apply rsurfaces_mret
  | |- rsurfaces (_ ≫= _) => apply rsurfaces_bind; [|intros ?]
  | |- rsurfaces (rread _ _) => apply rsurfaces_rread
  | |- rsurfaces (rfor _ _ _) => apply rsurfaces_rfor; intros ?
  | |- rsurfaces (get_each _ _) => apply rsurfaces_get_each; intros ?
  | |- rsurfaces (tuple_get _ _ _) => apply rsurfaces_tuple_get
  | |- rsurfaces (if ?b then _ else _) => destruct b
  | |- rsurfaces (match ?x with _ => _ end) => destruct x
  | |- wsurfaces wret => apply wsurfaces_wret
  | |- wsurfaces (wwrite _) => apply wsurfaces_wwrite
  | |- wsurfaces (_ ⨾ _)%W => apply wsurfaces_wseq
  | |- wsurfaces (deref _ _) => apply wsurfaces_deref; intros ?
  | |- wsurfaces (put_each _ _) => apply wsurfaces_put_each; intros ?
  | |- wsurfaces (tuple_put _ _ _) => apply wsurfaces_tuple_put
  | |- wsurfaces (if ?b then _ else _) => destruct b
  | |- wsurfaces (match ?x with _ => _ end) => destruct x
  | H : surfacing ?S |- wsurfaces (put ?S _) => apply H
  | H : surfacing ?S |- rsurfaces (get ?S _) => apply H
  | H : slots_surfacing ?R |- wsurfaces (put_slot ?R _ _) => apply H
  | H : slots_surfacing ?R |- rsurfaces (get_slot ?R _ _) => apply H
  end.

Section Surfacing.
Context {storage : Storage}.

Lemma surfacing_pod {T} (P : Pod T) : surfacing (Serial_pod P).
Proof.
  split; intros object; cbn [put get Serial_pod]; unfold pod_put, pod_get;
    repeat surf_step.
Qed.

Lemma wsurfaces_put_size n : wsurfaces (put_size n).
Proof. apply surfacing_pod. Qed.

Lemma rsurfaces_get_size : rsurfaces get_size.
Proof.
  unfold get_size. apply rsurfaces_bind; [apply surfacing_pod|].
  intros s. apply rsurfaces_mret.
Qed.

Lemma wsurfaces_put_flag b : wsurfaces (put Serial_bool b).
Proof. apply surfacing_pod. Qed.

Lemma rsurfaces_get_flag b : rsurfaces (get Serial_bool b).
Proof. apply surfacing_pod. Qed.

Ltac surf :=
  repeat first
    [ apply wsurfaces_put_size | apply rsurfaces_get_size
    | apply wsurfaces_put_flag | apply rsurfaces_get_flag
    | surf_step ].

Lemma surfacing_unique_ptr {T} (S : Serial T) :
  surfacing S → surfacing (Serial_unique_ptr S).
Proof.
  intros HS. split; intros object; cbn [put get Serial_unique_ptr];
    unfold unique_ptr_put, unique_ptr_get; surf.
Qed.

Lemma surfacing_shared_ptr {T} (S : Serial T) :
  surfacing S → surfacing (Serial_shared_ptr S).
Proof.
  intros HS. split; intros object; cbn [put get Serial_shared_ptr];
    unfold shared_ptr_put, shared_ptr_get; surf.
Qed.

Lemma surfacing_optional {T} (S : Serial T) :
  surfacing S → surfacing (Serial_optional S).
Proof.
  intros HS. split; intros object; cbn [put get Serial_optional];
    unfold optional_put, optional_get; cbn zeta; surf.
Qed.

Lemma surfacing_basic_string {T} (P : Pod T) :
  surfacing (Serial_basic_string P).
Proof.
  split; intros object; cbn [put get Serial_basic_string];
    unfold basic_string_put, basic_string_get; cbn zeta; surf.
Qed.

Lemma surfacing_vector {T} (S : Serial T) :
  surfacing S → surfacing (Serial_vector S).
Proof.
  intros HS. split; intros object; cbn [put get Serial_vector];
    unfold vector_put, vector_get; cbn zeta; surf.
Qed.

Lemma surfacing_array {T} (S : Serial T) N :
  surfacing S → surfacing (Serial_array S N).
Proof.
  intros HS. split; intros object; cbn [put get Serial_array];
    unfold array_put, array_get; surf.
Qed.

Lemma rsurfaces_push_back_get {T} (S : Serial T) object :
  surfacing S → rsurfaces (push_back_get S object).
Proof. intros HS. unfold push_back_get. surf. Qed.

Lemma surfacing_list {T} (S : Serial T) :
  surfacing S → surfacing (Serial_list S).
Proof.
  intros HS. split; intros object; cbn [put get Serial_list];
    unfold list_put, list_get; surf. by apply rsurfaces_push_back_get.
Qed.

Lemma surfacing_deque {T} (S : Serial T) :
  surfacing S → surfacing (Serial_deque S).
Proof.
  intros HS. split; intros object; cbn [put get Serial_deque];
    unfold deque_put, deque_get; surf. by apply rsurfaces_push_back_get.
Qed.

Lemma surfacing_set `{Countable T} (S : Serial T) :
  surfacing S → surfacing (Serial_set S).
Proof.
  intros HS. split; intros object; cbn [put get Serial_set];
    unfold set_put, set_get, insert_get; surf.
Qed.

Lemma surfacing_unordered_set `{Countable T} (S : Serial T) :
  surfacing S → surfacing (Serial_unordered_set S).
Proof.
  intros HS. split; intros object; cbn [put get Serial_unordered_set];
    unfold unordered_set_put, unordered_set_get, insert_get; surf.
Qed.

Lemma surfacing_pair {T0 T1} (S0 : Serial T0) (S1 : Serial T1) :
  surfacing S0 → surfacing S1 → surfacing (Serial_pair S0 S1).
Proof.
  intros H0 H1. split; intros object; cbn [put get Serial_pair];
    unfold pair_put, pair_get; surf.
Qed.

Lemma surfacing_map `{Countable K} {V} (SK : Serial K) (SV : Serial V) :
  surfacing SK → surfacing SV → surfacing (Serial_map SK SV).
Proof.
  intros HK HV. pose proof (surfacing_pair SK SV HK HV) as HP.
  split; intros object; cbn [put get Serial_map];
    unfold map_put, map_get, emplace_get; surf.
Qed.

Lemma surfacing_unordered_map `{Countable K} {V}
  (SK : Serial K) (SV : Serial V) :
  surfacing SK → surfacing SV → surfacing (Serial_unordered_map SK SV).
Proof.
  intros HK HV. pose proof (surfacing_pair SK SV HK HV) as HP.
  split; intros object; cbn [put get Serial_unordered_map];
    unfold unordered_map_put, unordered_map_get, emplace_get; surf.
Qed.

Lemma surfacing_tuple {T} (R : Slots T) :
  slots_surfacing R → surfacing (Serial_tuple R).
Proof.
  intros HR. split; intros object; cbn [put get Serial_tuple]; surf; done.
Qed.

Lemma slots_surfacing_nil : slots_surfacing Slots_nil.
Proof. split; intros id object; cbn [put_slot get_slot Slots_nil]; surf. Qed.

Lemma slots_surfacing_cons {A B} (S : Serial A) (R : Slots B) :
  surfacing S → slots_surfacing R → slots_surfacing (Slots_cons S R).
Proof.
  intros HS HR.
  split; intros id object; cbn [put_slot get_slot Slots_cons];
    destruct id; surf.
Qed.

Lemma surfacing_serial {T} (sh : shape T) : surfacing (serial sh).
Proof.
  induction sh using shape_mutind
    with (P0 := λ T ts, slots_surfacing (slots ts));
    cbn [serial slots];
    eauto using surfacing_pod, surfacing_unique_ptr, surfacing_shared_ptr,
      surfacing_optional, surfacing_basic_string, surfacing_vector,
      surfacing_array, surfacing_list, surfacing_deque, surfacing_set,
      surfacing_unordered_set, surfacing_pair, surfacing_map,
      surfacing_unordered_map, surfacing_tuple, slots_surfacing_nil,
      slots_surfacing_cons.
Qed.

(** *** Encoders return on values without null pointers *)

Lemma wreturns_wret : wreturns wret.
Proof. intros s. by exists s. Qed.

Lemma wreturns_wwrite bs : wreturns (wwrite bs).
Proof. intros s. by eexists. Qed.

Lemma wreturns_wseq (w1 w2 : Writer) :
  wreturns w1 → wreturns w2 → wreturns (w1 ⨾ w2)%W.
Proof.
  intros H1 H2 s. unfold wseq. destruct (H1 s) as [s1 ->]. apply H2.
Qed.

Lemma wreturns_put_each {T} (S : Serial T) (ok : T → Prop) (object : list T) :
  returning S ok → Forall ok object → wreturns (put_each S object).
Proof.
  intros HS. induction 1 as [|x object Hx _ IH]; cbn [put_each].
  - apply wreturns_wret.
  - apply wreturns_wseq; [by apply HS|apply IH].
Qed.

Lemma wreturns_put_size n : wreturns (put_size n).
Proof. apply wreturns_wwrite. Qed.

Lemma wreturns_bulk {T} (P : Pod T) (object : list T) (b : bool) :
  wreturns (if b then wwrite (flatten P object) else wret).
Proof. destruct b; [apply wreturns_wwrite|apply wreturns_wret]. Qed.

Lemma wreturns_tuple_put {T} (R : Slots T) (ok : T → Prop) object id :
  slots_returning R ok → ok object → wreturns (tuple_put R object id).
Proof.
  intros HR Hok. remember (arity R - id)%nat as n eqn:Hn.
  revert id Hn. induction n as [|n IH]; intros id Hn s.
  - rewrite tuple_put_step, decide_False by lia. by eexists.
  - rewrite tuple_put_step, decide_True by lia.
    apply wreturns_wseq; [by apply HR|]. apply IH. lia.
Qed.

Lemma returning_serial {T} (sh : shape T) :
  returning (serial sh) (null_free sh).
Proof.
  induction sh using shape_mutind
    with (P0 := λ T ts, slots_returning (slots ts) (null_free_slots ts));
    cbn [serial slots null_free null_free_slots]; intros object Hok;
    cbn [put Serial_pod Serial_unique_ptr Serial_shared_ptr Serial_optional
         Serial_basic_string Serial_vector Serial_array Serial_list
         Serial_deque Serial_set Serial_unordered_set Serial_pair Serial_map
         Serial_unordered_map Serial_tuple].
  - apply wreturns_wwrite.
  - destruct object as [x|]; [|done].
    apply wreturns_wseq; [apply wreturns_wwrite|by apply IHsh].
  - destruct object as [x|]; [|done].
    apply wreturns_wseq; [apply wreturns_wwrite|by apply IHsh].
  - apply wreturns_wseq; [apply wreturns_put_size|apply wreturns_bulk].
  - unfold vector_put. apply wreturns_wseq; [apply wreturns_put_size|].
    destruct (as_pod (serial sh));
      [apply wreturns_bulk|by apply wreturns_put_each with (null_free sh)].
  - unfold array_put. case_bool_decide; [|apply wreturns_wret].
    destruct (as_pod (serial sh));
      [apply wreturns_wwrite|by apply wreturns_put_each with (null_free sh)].
  - apply wreturns_wseq; [apply wreturns_put_size|].
    by apply wreturns_put_each with (null_free sh).
  - apply wreturns_wseq; [apply wreturns_put_size|].
    by apply wreturns_put_each with (null_free sh).
  - apply wreturns_wseq; [apply wreturns_put_size|].
    apply wreturns_put_each with (null_free sh); [done|].
    apply Forall_forall. intros x Hx. by apply Hok, elem_of_elements.
  - apply wreturns_wseq; [apply wreturns_put_size|].
    apply wreturns_put_each with (null_free sh); [done|].
    apply Forall_forall. intros x Hx. by apply Hok, elem_of_elements.
  - destruct Hok as [H1 H2].
    apply wreturns_wseq; [by apply IHsh1|by apply IHsh2].
  - apply wreturns_wseq; [apply wreturns_put_size|].
    apply wreturns_put_each
      with (λ kv, null_free sh1 kv.1 ∧ null_free sh2 kv.2).
    + intros kv [H1 H2]. apply wreturns_wseq; [by apply IHsh1|by apply IHsh2].
    + apply Forall_forall. intros [k x] Hkx.
      by apply (Hok k x), elem_of_map_to_list.
  - apply wreturns_wseq; [apply wreturns_put_size|].
    apply wreturns_put_each
      with (λ kv, null_free sh1 kv.1 ∧ null_free sh2 kv.2).
    + intros kv [H1 H2]. apply wreturns_wseq; [by apply IHsh1|by apply IHsh2].
    + apply Forall_forall. intros [k x] Hkx.
      by apply (Hok k x), elem_of_map_to_list.
  - by apply wreturns_tuple_put with (null_free_slots ts).
  - destruct object as [x|].
    + apply wreturns_wseq; [apply wreturns_wwrite|by apply IHsh].
    + apply wreturns_wseq; [apply wreturns_wwrite|apply wreturns_wret].
  - intros id. apply wreturns_wret.
  - destruct Hok as [H1 H2]. intros [|id]; cbn [put_slot Slots_cons].
    + by apply IHsh.
    + by apply IHsh0.
Qed.

End Surfacing.

(** C8: for every shape of the header, nested to any depth, and every
    stream state: if a [read] of a decoding call gets fewer bytes than it
    asked for, or a [write] of an encoding call cannot place all its
    bytes, or the stream was in failed state already, then the stream that
    the outermost call hands back to its caller is in failed state.
    Nothing on the way resets it.  Decoding calls always return; encoding
    calls return for every value without a null pointer, and the property
    holds for whatever call returns. *)
Theorem io_failure_surfaces {storage : Storage} {T} (sh : shape T) :
  (∀ (object : T) (s : istream),
     let s' := (get (serial sh) object s).2 in
     ∃ ext,
       ilog s' = ilog s ++ ext
       ∧ (ifail s = true ∨ Exists short ext → ifail s' = true))
  ∧ (∀ (object : T) (s : ostream),
       null_free sh object →
       ∃ s' ext,
         put (serial sh) object s = Done s'
         ∧ olog s' = olog s ++ ext
         ∧ (ofail s = true ∨ Exists short ext → ofail s' = true))
  ∧ (∀ (object : T) (s s' : ostream),
       put (serial sh) object s = Done s' →
       ∃ ext,
         olog s' = olog s ++ ext
         ∧ (ofail s = true ∨ Exists short ext → ofail s' = true)).
Proof.
  destruct (surfacing_serial sh) as [Hput Hget]. repeat apply conj.
  - intros object s. apply Hget.
  - intros object s Hok.
    destruct (returning_serial sh object Hok s) as [s' Hs'].
    destruct (Hput object s s' Hs') as (ext & Hlog & Hfail).
    by exists s', ext.
  - intros object s s'. apply Hput.
Qed.

(** A file cut off inside the payload of 456, and an output stream whose
    [write] comes up short after ten bytes: the failure is there when the
    outermost call returns. *)
Lemma io_failure_surfaces_witness :
  ifail (get (@Serial_data0 zero_filled) []
           (file_in [x03; x00; x00; x00; x00; x00; x00; x00;
                     x00; x01; xc8; x01])).2 = true
  ∧ null_free shape_data0 data0
  ∧ ∃ s', put (@Serial_data0 zero_filled) data0 (fresh_out (Some 10%nat))
          = Done s'
          ∧ ofail s' = true.
Proof.
  destruct (@io_failure_surfaces zero_filled _ shape_data0)
    as (Hget & Hput & _).
  assert (Hnull : null_free shape_data0 data0) by (by repeat constructor).
  split; [|split; [exact Hnull|]].
  - destruct (Hget [] (file_in [x03; x00; x00; x00; x00; x00; x00; x00;
                                x00; x01; xc8; x01]))
      as (ext & Hlog & Hfail).
    apply Hfail. right. cbn [ilog file_in app] in Hlog. rewrite <- Hlog.
    apply (bool_decide_unpack _). vm_compute. exact I.
  - destruct (Hput data0 (fresh_out (Some 10%nat)) Hnull)
      as (s' & ext & Hs' & Hlog & Hfail).
    exists s'. split; [exact Hs'|].
    apply Hfail. right. cbn [olog fresh_out app] in Hlog.
    assert (Hext : ext = olog s') by done. rewrite Hext.
    injection Hs' as <-. apply (bool_decide_unpack _). vm_compute. exact I.
Defined.

(** ** Round trips *)

Lemma Forall_exists_Forall2 {A B} (R : A → B → Prop) (l : list A) :
  Forall (λ x, ∃ y, R x y) l → ∃ ys, Forall2 R l ys.
Proof.
  induction 1 as [|x l [y Hy] _ [ys Hys]].
  - exists []. constructor.
  - exists (y :: ys). by constructor.
Qed.

Lemma emits_put_each {T} (S : Serial T) (v : list T) (bss : list (list byte)) :
  Forall2 (λ x bs, emits (put S x) bs) v bss →
  emits (put_each S v) (mjoin bss).
Proof.
  induction 1 as [|x bs v bss Hx _ IH]; cbn [put_each mjoin list_join].
  - apply emits_wret.
  - by apply emits_wseq.
Qed.

Lemma yields_get_each {T} (S : Serial T) (fr : T → Prop)
  (v ds : list T) (bss : list (list byte)) :
  Forall2 (λ x bs, ∀ d, fr d → yields (get S d) bs x) v bss →
  Forall fr ds → length ds = length v →
  yields (get_each S ds) (mjoin bss) v.
Proof.
  intros H. revert ds.
  induction H as [|x bs v bss Hx _ IH]; intros ds Hfr Hlen.
  - destruct ds; [|done]. apply (yields_mret []).
  - destruct ds as [|d ds]; [done|].
    apply Forall_cons in Hfr as [Hd Hds]. cbn [get_each mjoin list_join].
    eapply yields_bind; [by apply Hx|].
    rewrite <- (app_nil_r (mjoin bss)).
    eapply yields_bind; [apply IH; [done|by injection Hlen]|].
    apply yields_mret.
Qed.

Lemma yields_rfor {A B} (body : A → Reader A) (step : A → B → A)
  (l : list B) (bss : list (list byte)) :
  Forall2 (λ x bs, ∀ acc, yields (body acc) bs (step acc x)) l bss →
  ∀ acc, yields (rfor (length l) body acc) (mjoin bss) (foldl step acc l).
Proof.
  induction 1 as [|x bs l bss Hx _ IH]; intros acc.
  - apply (yields_mret acc).
  - cbn [length rfor mjoin list_join foldl].
    eapply yields_bind; [apply Hx|]. apply IH.
Qed.

Lemma foldl_push_back {T} (acc l : list T) :
  foldl (λ acc x, acc ++ [x]) acc l = acc ++ l.
Proof.
  revert acc. induction l as [|x l IH]; intros acc; cbn [foldl].
  - by rewrite app_nil_r.
  - by rewrite IH, <- app_assoc.
Qed.

Lemma foldl_insert `{Countable T} (acc : gset T) (l : list T) :
  foldl (λ acc x, {[x]} ∪ acc) acc l = acc ∪ list_to_set l.
Proof.
  revert acc. induction l as [|x l IH]; intros acc; cbn [foldl list_to_set].
  - by rewrite (right_id_L ∅ (∪)).
  - by rewrite IH, (comm_L (∪) {[x]} acc), (assoc_L (∪)).
Qed.

Lemma map_emplace_alt `{Countable K} {V} (kv : K * V) (object : gmap K V) :
  map_emplace kv object = object ∪ {[kv.1 := kv.2]}.
Proof.
  unfold map_emplace. apply map_eq. intros j. rewrite lookup_union.
  destruct (object !! kv.1) as [x|] eqn:Hk.
  - destruct (decide (j = kv.1)) as [->|Hne].
    + by rewrite Hk, lookup_singleton_eq.
    + rewrite lookup_singleton_ne by done. by destruct (object !! j).
  - destruct (decide (j = kv.1)) as [->|Hne].
    + by rewrite lookup_insert_eq, Hk, lookup_singleton_eq.
    + rewrite lookup_insert_ne, lookup_singleton_ne by done.
      by destruct (object !! j).
Qed.

Lemma foldl_emplace `{Countable K} {V} (acc : gmap K V) (l : list (K * V)) :
  foldl (λ acc kv, map_emplace kv acc) acc l = acc ∪ list_to_map l.
Proof.
  revert acc. induction l as [|[k v] l IH]; intros acc;
    cbn [foldl list_to_map foldr].
  - by rewrite (right_id_L ∅ (∪)).
  - rewrite IH, map_emplace_alt. cbn [fst snd].
    by rewrite <- (assoc_L (∪)), <- insert_union_singleton_l.
Qed.

Section RoundTrip.
Context {storage : Storage}.

Lemma pod_roundtrip {T} (f : fundamental T) (v d : T) :
  in_range f v →
  emits (put (Serial_pod (pod_of f)) v) (repr (pod_of f) v)
  ∧ yields (get (Serial_pod (pod_of f)) d) (repr (pod_of f) v) v.
Proof.
  intros Hv. split; [apply emits_wwrite|].
  cbn [get Serial_pod]. unfold pod_get.
  rewrite <- (app_nil_r (repr _ v)). eapply yields_bind.
  - apply yields_rread; [apply pod_of_length|]. by rewrite pod_of_length.
  - rewrite pod_of_unrepr by done. apply yields_mret.
Qed.

Lemma flag_roundtrip (b d : bool) :
  emits (put Serial_bool b) [if b then x01 else x00]
  ∧ yields (get Serial_bool d) [if b then x01 else x00] b.
Proof. by apply (pod_roundtrip f_bool). Qed.

Lemma roundtrips_fundamental {T} (f : fundamental T) :
  roundtrips (Serial_pod (pod_of f)) (in_range f) (λ _, True).
Proof.
  intros v Hv. exists (repr (pod_of f) v).
  split; [by apply pod_roundtrip|]. intros d _. by apply pod_roundtrip.
Qed.

(** A present value behind a flag: shared by the two pointers and
    [std::optional]. *)
Lemma present_roundtrip {T} (S : Serial T) (x : T) (d : option T) bs :
  emits (put S x) bs → yields (get S (value_init S)) bs x →
  emits (put Serial_bool true ⨾ deref (Some x) (put S))%W (x01 :: bs)
  ∧ yields (hasValue ← get Serial_bool (default_init Serial_bool);
            if hasValue : bool
            then y ← get S (value_init S); mret (Some y)
            else mret d) (x01 :: bs) (Some x).
Proof.
  intros He Hy. split.
  - apply (emits_wseq _ _ [x01] bs); [apply (flag_roundtrip true true)|done].
  - apply (yields_bind _ _ [x01] bs true); [apply (flag_roundtrip true)|].
    rewrite <- (app_nil_r bs). eapply yields_bind; [exact Hy|].
    apply yields_mret.
Qed.

Lemma roundtrips_unique_ptr {T} (S : Serial T) (ok fr : T → Prop) :
  roundtrips S ok fr → fr (value_init S) →
  roundtrips (Serial_unique_ptr S)
    (λ v, match v with Some x => ok x | None => False end) (λ d, d = None).
Proof.
  intros HS Hinit [x|] Hv; [|done]. destruct (HS x Hv) as (bs & He & Hy).
  exists (x01 :: bs). split; [|intros d _].
  - exact (proj1 (present_roundtrip S x None bs He (Hy _ Hinit))).
  - exact (proj2 (present_roundtrip S x d bs He (Hy _ Hinit))).
Qed.

Lemma roundtrips_shared_ptr {T} (S : Serial T) (ok fr : T → Prop) :
  roundtrips S ok fr → fr (value_init S) →
  roundtrips (Serial_shared_ptr S)
    (λ v, match v with Some x => ok x | None => False end) (λ d, d = None).
Proof.
  intros HS Hinit [x|] Hv; [|done]. destruct (HS x Hv) as (bs & He & Hy).
  exists (x01 :: bs). split; [|intros d _].
  - exact (proj1 (present_roundtrip S x None bs He (Hy _ Hinit))).
  - exact (proj2 (present_roundtrip S x d bs He (Hy _ Hinit))).
Qed.

Lemma roundtrips_optional {T} (S : Serial T) (ok fr : T → Prop) :
  roundtrips S ok fr → fr (value_init S) →
  roundtrips (Serial_optional S)
    (λ v, match v with Some x => ok x | None => True end) (λ d, d = None).
Proof.
  intros HS Hinit [x|] Hv.
  - destruct (HS x Hv) as (bs & He & Hy).
    exists (x01 :: bs). split; [|intros d _].
    + exact (proj1 (present_roundtrip S x None bs He (Hy _ Hinit))).
    + exact (proj2 (present_roundtrip S x d bs He (Hy _ Hinit))).
  - exists [x00]. split; [|intros d ->].
    + apply (emits_wseq _ _ [x00] []); [|apply emits_wret].
      apply (flag_roundtrip false true).
    + cbn [get Serial_optional]. unfold optional_get.
      apply (yields_bind _ _ [x00] [] false); [apply (flag_roundtrip false)|].
      apply yields_mret.
Qed.

Lemma roundtrips_pair {T0 T1} (S0 : Serial T0) (S1 : Serial T1)
  (ok0 fr0 : T0 → Prop) (ok1 fr1 : T1 → Prop) :
  roundtrips S0 ok0 fr0 → roundtrips S1 ok1 fr1 →
  roundtrips (Serial_pair S0 S1)
    (λ v, ok0 v.1 ∧ ok1 v.2) (λ d, fr0 d.1 ∧ fr1 d.2).
Proof.
  intros H0 H1 [a b] [Ha Hb]; cbn [fst snd] in *.
  destruct (H0 a Ha) as (bs0 & He0 & Hy0).
  destruct (H1 b Hb) as (bs1 & He1 & Hy1).
  exists (bs0 ++ bs1). split; [by apply emits_pair|].
  intros [d0 d1] [Hd0 Hd1]. apply yields_pair; auto.
Qed.

Lemma roundtrips_tuple_nil :
  roundtrips (Serial_tuple Slots_nil) (λ _, True) (λ _, True).
Proof.
  intros [] _. exists []. split; [apply emits_tuple_nil|].
  intros [] _. apply yields_tuple_nil.
Qed.

Lemma roundtrips_tuple_cons {A B} (S : Serial A) (R : Slots B)
  (ok fr : A → Prop) (okR frR : B → Prop) :
  roundtrips S ok fr → roundtrips (Serial_tuple R) okR frR →
  roundtrips (Serial_tuple (Slots_cons S R))
    (λ v, ok v.1 ∧ okR v.2) (λ d, fr d.1 ∧ frR d.2).
Proof.
  intros H0 H1 [a t] [Ha Ht]; cbn [fst snd] in *.
  destruct (H0 a Ha) as (bs0 & He0 & Hy0).
  destruct (H1 t Ht) as (bs1 & He1 & Hy1).
  exists (bs0 ++ bs1). split; [by apply emits_tuple_cons|].
  intros [d dt] [Hd Hdt]. apply yields_tuple_cons; auto.
Qed.

End RoundTrip.

(** *** Elements that lie one after another in memory *)

Lemma length_flatten {T} (f : fundamental T) (v : list T) :
  length (flatten (pod_of f) v) = (sizeof (pod_of f) * length v)%nat.
Proof.
  induction v as [|x v IH]; cbn [length]; [cbn; lia|].
  change (flatten (pod_of f) (x :: v))
    with (repr (pod_of f) x ++ flatten (pod_of f) v).
  rewrite length_app, IH, pod_of_length. lia.
Qed.

Lemma unflatten_flatten {T} (f : fundamental T) (v : list T) :
  Forall (in_range f) v →
  unflatten (pod_of f) (length v) (flatten (pod_of f) v) = v.
Proof.
  induction 1 as [|x v Hx _ IH]; [done|].
  change (flatten (pod_of f) (x :: v))
    with (repr (pod_of f) x ++ flatten (pod_of f) v).
  cbn [length unflatten].
  rewrite take_app_length', drop_app_length' by (by rewrite pod_of_length).
  by rewrite pod_of_unrepr, IH.
Qed.

Lemma bulk_yields {T} (f : fundamental T) (v d : list T) (n : nat) :
  Forall (in_range f) v → length v = n → (length d ≤ n)%nat →
  yields (bs ← rread (sizeof (pod_of f) * n) (flatten (pod_of f) d);
          mret (unflatten (pod_of f) n bs))
    (flatten (pod_of f) v) v.
Proof.
  intros Hv Hn Hd. rewrite <- (app_nil_r (flatten _ v)).
  eapply yields_bind.
  - apply yields_rread; rewrite length_flatten; [by rewrite Hn|].
    apply Nat.mul_le_mono_l, Hd.
  - rewrite <- Hn, unflatten_flatten by done. apply yields_mret.
Qed.

Section RoundTripContainers.
Context {storage : Storage}.

Lemma roundtrips_each {T} (S : Serial T) (ok fr : T → Prop) (v : list T) :
  roundtrips S ok fr → Forall ok v →
  ∃ bss,
    Forall2 (λ x bs, emits (put S x) bs) v bss
    ∧ Forall2 (λ x bs, ∀ d, fr d → yields (get S d) bs x) v bss.
Proof.
  intros HS Hv.
  destruct (Forall_exists_Forall2
              (λ x bs, emits (put S x) bs ∧ ∀ d, fr d → yields (get S d) bs x) v)
    as [bss Hbss].
  { eapply Forall_impl; [exact Hv|]. intros x Hx. by apply HS. }
  exists bss. split; (eapply Forall2_impl; [exact Hbss|]); by intros x bs [? ?].
Qed.

Lemma roundtrips_basic_string {T} (f : fundamental T) :
  roundtrips (Serial_basic_string (pod_of f))
    (λ v, fits_size_t (length v) ∧ Forall (in_range f) v) (λ d, d = []).
Proof.
  intros v [Hfit Hv].
  exists (le_bytes 8 (Z.of_nat (length v)) ++ flatten (pod_of f) v).
  split.
  - apply emits_wseq; [apply emits_put_size|].
    case_bool_decide as Hlen; [apply emits_wwrite|].
    destruct v; [apply emits_wret|simpl in Hlen; lia].
  - intros d ->. cbn [get Serial_basic_string]. unfold basic_string_get.
    eapply yields_bind; [by apply yields_get_size|].
    case_bool_decide as Hlen.
    + cbn zeta. rewrite length_resize, (Nat.mul_comm (length v)).
      apply bulk_yields; [done..|]. by rewrite length_resize.
    + destruct v; [apply (yields_mret [])|simpl in Hlen; lia].
Qed.

Lemma roundtrips_vector_pod {T} (f : fundamental T) :
  roundtrips (Serial_vector (Serial_pod (pod_of f)))
    (λ v, fits_size_t (length v) ∧ Forall (in_range f) v) (λ d, d = []).
Proof.
  intros v [Hfit Hv].
  exists (le_bytes 8 (Z.of_nat (length v)) ++ flatten (pod_of f) v).
  split.
  - apply emits_wseq; [apply emits_put_size|]. cbn [as_pod Serial_pod].
    case_bool_decide as Hlen; [apply emits_wwrite|].
    destruct v; [apply emits_wret|simpl in Hlen; lia].
  - intros d ->. cbn [get Serial_vector]. unfold vector_get.
    eapply yields_bind; [by apply yields_get_size|].
    case_bool_decide as Hlen.
    + destruct v; [apply (yields_mret [])|done].
    + cbn [as_pod Serial_pod]. cbn zeta.
      apply bulk_yields; [done..|]. by rewrite length_resize.
Qed.

Lemma roundtrips_vector_each {T} (S : Serial T) (ok fr : T → Prop) :
  as_pod S = None → roundtrips S ok fr → fr (value_init S) →
  roundtrips (Serial_vector S)
    (λ v, fits_size_t (length v) ∧ Forall ok v) (λ d, d = []).
Proof.
  intros Hpod HS Hinit v [Hfit Hv].
  destruct (roundtrips_each S ok fr v HS Hv) as (bss & He & Hy).
  exists (le_bytes 8 (Z.of_nat (length v)) ++ mjoin bss). split.
  - cbn [put Serial_vector]. unfold vector_put. rewrite Hpod.
    apply emits_wseq; [apply emits_put_size|by apply emits_put_each].
  - intros d ->. cbn [get Serial_vector]. unfold vector_get. rewrite Hpod.
    eapply yields_bind; [by apply yields_get_size|].
    case_bool_decide as Hlen.
    + destruct v; [|done]. apply Forall2_nil_inv_l in Hy as ->.
      apply (yields_mret []).
    + cbn zeta. eapply yields_get_each; [exact Hy| |].
      * rewrite resize_nil. by apply Forall_replicate.
      * by rewrite length_resize.
Qed.

Lemma roundtrips_array_pod {T} (f : fundamental T) (N : nat) :
  roundtrips (Serial_array (Serial_pod (pod_of f)) N)
    (λ v, length v = N ∧ Forall (in_range f) v)
    (λ d, length d = N ∧ Forall (λ _, True) d).
Proof.
  intros v [Hlen Hv]. exists (flatten (pod_of f) v). split.
  - cbn [put Serial_array]. unfold array_put. cbn [as_pod Serial_pod].
    case_bool_decide as HN; [apply emits_wwrite|].
    destruct v; [apply emits_wret|simpl in Hlen; lia].
  - intros d [Hd _]. cbn [get Serial_array]. unfold array_get.
    cbn [as_pod Serial_pod]. case_bool_decide as HN.
    + apply bulk_yields; [done..|lia].
    + destruct v, d; try (simpl in *; lia). apply (yields_mret []).
Qed.

Lemma roundtrips_array_each {T} (S : Serial T) (ok fr : T → Prop) (N : nat) :
  as_pod S = None → roundtrips S ok fr →
  roundtrips (Serial_array S N)
    (λ v, length v = N ∧ Forall ok v) (λ d, length d = N ∧ Forall fr d).
Proof.
  intros Hpod HS v [Hlen Hv].
  destruct (roundtrips_each S ok fr v HS Hv) as (bss & He & Hy).
  exists (mjoin bss). split.
  - cbn [put Serial_array]. unfold array_put. rewrite Hpod.
    case_bool_decide as HN; [by apply emits_put_each|].
    destruct v; [|simpl in Hlen; lia]. apply Forall2_nil_inv_l in He as ->.
    apply emits_wret.
  - intros d [Hd Hfr]. cbn [get Serial_array]. unfold array_get.
    rewrite Hpod. case_bool_decide as HN.
    + eapply yields_get_each; [exact Hy|done|lia].
    + destruct v, d; try (simpl in *; lia).
      apply Forall2_nil_inv_l in Hy as ->. apply (yields_mret []).
Qed.

End RoundTripContainers.

Section RoundTripLoops.
Context {storage : Storage}.

Lemma yields_push_back {T} (S : Serial T) (l : list T) bss acc :
  Forall2 (λ x bs, yields (get S (value_init S)) bs x) l bss →
  yields (rfor (length l) (push_back_get S) acc) (mjoin bss) (acc ++ l).
Proof.
  intros H. rewrite <- foldl_push_back.
  apply (yields_rfor (push_back_get S) (λ acc x, acc ++ [x])).
  eapply Forall2_impl; [exact H|]. intros x bs Hx acc'.
  unfold push_back_get. rewrite <- (app_nil_r bs).
  eapply yields_bind; [exact Hx|]. apply yields_mret.
Qed.

Lemma roundtrips_list {T} (S : Serial T) (ok fr : T → Prop) :
  roundtrips S ok fr → fr (value_init S) →
  roundtrips (Serial_list S)
    (λ v, fits_size_t (length v) ∧ Forall ok v) (λ d, d = []).
Proof.
  intros HS Hinit v [Hfit Hv].
  destruct (roundtrips_each S ok fr v HS Hv) as (bss & He & Hy).
  exists (le_bytes 8 (Z.of_nat (length v)) ++ mjoin bss). split.
  - apply emits_wseq; [apply emits_put_size|by apply emits_put_each].
  - intros d ->. cbn [get Serial_list]. unfold list_get.
    eapply yields_bind; [by apply yields_get_size|].
    apply (yields_push_back S v bss []).
    eapply Forall2_impl; [exact Hy|]. intros x bs Hx. by apply Hx.
Qed.

Lemma roundtrips_deque {T} (S : Serial T) (ok fr : T → Prop) :
  roundtrips S ok fr → fr (value_init S) →
  roundtrips (Serial_deque S)
    (λ v, fits_size_t (length v) ∧ Forall ok v) (λ d, d = []).
Proof. apply roundtrips_list. Qed.

Lemma yields_insert `{Countable T} (S : Serial T) (l : list T) bss acc :
  Forall2 (λ x bs, yields (get S (default_init S)) bs x) l bss →
  yields (rfor (length l) (insert_get S) acc) (mjoin bss)
    (acc ∪ list_to_set l).
Proof.
  intros Hl. rewrite <- foldl_insert.
  apply (yields_rfor (insert_get S) (λ acc x, {[x]} ∪ acc)).
  eapply Forall2_impl; [exact Hl|]. intros x bs Hx acc'.
  unfold insert_get. rewrite <- (app_nil_r bs).
  eapply yields_bind; [exact Hx|]. apply yields_mret.
Qed.

Lemma roundtrips_set `{Countable T} (S : Serial T) (ok fr : T → Prop) :
  roundtrips S ok fr → fr (default_init S) →
  roundtrips (Serial_set S)
    (λ v, fits_size_t (size v) ∧ set_Forall ok v) (λ d, d = ∅).
Proof.
  intros HS Hinit v [Hfit Hv].
  assert (Hel : Forall ok (elements v)).
  { apply Forall_forall. intros x Hx. by apply Hv, elem_of_elements. }
  destruct (roundtrips_each S ok fr _ HS Hel) as (bss & He & Hy).
  exists (le_bytes 8 (Z.of_nat (size v)) ++ mjoin bss). split.
  - apply emits_wseq; [apply emits_put_size|by apply emits_put_each].
  - intros d ->. cbn [get Serial_set]. unfold set_get.
    eapply yields_bind; [by apply yields_get_size|].
    rewrite <- (list_to_set_elements_L v) at 2.
    rewrite <- (left_id_L ∅ (∪) (list_to_set (elements v))).
    apply (yields_insert S (elements v) bss ∅).
    eapply Forall2_impl; [exact Hy|]. intros x bs Hx. by apply Hx.
Qed.

Lemma roundtrips_unordered_set `{Countable T} (S : Serial T)
  (ok fr : T → Prop) :
  roundtrips S ok fr → fr (default_init S) →
  roundtrips (Serial_unordered_set S)
    (λ v, fits_size_t (size v) ∧ set_Forall ok v) (λ d, d = ∅).
Proof. apply roundtrips_set. Qed.

Lemma yields_emplace `{Countable K} {V} (SK : Serial K) (SV : Serial V)
  (l : list (K * V)) bss acc :
  Forall2 (λ kv bs,
             yields (get (Serial_pair SK SV)
                       (default_init (Serial_pair SK SV))) bs kv) l bss →
  yields (rfor (length l) (emplace_get SK SV) acc) (mjoin bss)
    (acc ∪ list_to_map l).
Proof.
  intros Hl. rewrite <- foldl_emplace.
  apply (yields_rfor (emplace_get SK SV) (λ acc kv, map_emplace kv acc)).
  eapply Forall2_impl; [exact Hl|]. intros kv bs Hkv acc'.
  unfold emplace_get. rewrite <- (app_nil_r bs).
  eapply yields_bind; [exact Hkv|]. apply yields_mret.
Qed.

Lemma roundtrips_map `{Countable K} {V} (SK : Serial K) (SV : Serial V)
  (okK frK : K → Prop) (okV frV : V → Prop) :
  roundtrips SK okK frK → roundtrips SV okV frV →
  frK (value_init SK) → frV (value_init SV) →
  roundtrips (Serial_map SK SV)
    (λ v, fits_size_t (size v) ∧ map_Forall (λ key x, okK key ∧ okV x) v)
    (λ d, d = ∅).
Proof.
  intros HK HV HiK HiV v [Hfit Hv].
  pose proof (roundtrips_pair SK SV okK frK okV frV HK HV) as HP.
  assert (Hel : Forall (λ kv, okK kv.1 ∧ okV kv.2) (map_to_list v)).
  { apply Forall_forall. intros [k x] Hkx. cbn [fst snd].
    by apply (Hv k x), elem_of_map_to_list. }
  destruct (roundtrips_each _ _ _ _ HP Hel) as (bss & He & Hy).
  exists (le_bytes 8 (Z.of_nat (size v)) ++ mjoin bss). split.
  - apply emits_wseq; [apply emits_put_size|by apply emits_put_each].
  - intros d ->. cbn [get Serial_map]. unfold map_get.
    eapply yields_bind; [by apply yields_get_size|].
    rewrite <- (list_to_map_to_list v) at 2.
    rewrite <- (left_id_L ∅ (∪) (list_to_map (map_to_list v))).
    rewrite <- (length_map_to_list v).
    apply (yields_emplace SK SV (map_to_list v) bss ∅).
    eapply Forall2_impl; [exact Hy|]. intros kv bs Hkv. by apply Hkv.
Qed.

Lemma roundtrips_unordered_map `{Countable K} {V}
  (SK : Serial K) (SV : Serial V)
  (okK frK : K → Prop) (okV frV : V → Prop) :
  roundtrips SK okK frK → roundtrips SV okV frV →
  frK (value_init SK) → frV (value_init SV) →
  roundtrips (Serial_unordered_map SK SV)
    (λ v, fits_size_t (size v) ∧ map_Forall (λ key x, okK key ∧ okV x) v)
    (λ d, d = ∅).
Proof. apply roundtrips_map. Qed.

End RoundTripLoops.

Section RoundTripShapes.
Context {storage : Storage}.

Lemma shape_pod_cases {T} (sh : shape T) :
  (∃ f, sh = Fundamental f) ∨ as_pod (serial sh) = None.
Proof. destruct sh; eauto. Qed.

Lemma fresh_inits {T} (sh : shape T) :
  fresh sh (value_init (serial sh)) ∧ fresh sh (default_init (serial sh)).
Proof.
  induction sh using shape_mutind
    with (P0 := λ T ts, fresh_slots ts (slots_init (slots ts)));
    cbn [serial slots fresh fresh_slots value_init default_init slots_init
         Serial_pod Serial_unique_ptr Serial_shared_ptr Serial_optional
         Serial_basic_string Serial_vector Serial_array Serial_list
         Serial_deque Serial_set Serial_unordered_set Serial_pair Serial_map
         Serial_unordered_map Serial_tuple Slots_nil Slots_cons fst snd];
    try done.
  - destruct IHsh as [Hv Hd].
    split; (split; [apply length_replicate|by apply Forall_replicate]).
  - destruct IHsh1 as [Hv1 _], IHsh2 as [Hv2 _]. by repeat split.
  - destruct IHsh as [Hv _]. by split.
Qed.

Lemma roundtrips_serial {T} (sh : shape T) :
  roundtrips (serial sh) (encodable sh) (fresh sh).
Proof.
  induction sh using shape_mutind
    with (P0 := λ T ts,
            roundtrips (Serial_tuple (slots ts))
              (encodable_slots ts) (fresh_slots ts));
    cbn [serial slots encodable encodable_slots fresh fresh_slots].
  - apply roundtrips_fundamental.
  - apply roundtrips_unique_ptr with (fresh sh); [done|apply fresh_inits].
  - apply roundtrips_shared_ptr with (fresh sh); [done|apply fresh_inits].
  - apply roundtrips_basic_string.
  - destruct (shape_pod_cases sh) as [[f ->]|Hnone].
    + apply roundtrips_vector_pod.
    + apply roundtrips_vector_each with (fresh sh);
        [done|done|apply fresh_inits].
  - destruct (shape_pod_cases sh) as [[f ->]|Hnone].
    + apply roundtrips_array_pod.
    + by apply roundtrips_array_each.
  - apply roundtrips_list with (fresh sh); [done|apply fresh_inits].
  - apply roundtrips_deque with (fresh sh); [done|apply fresh_inits].
  - apply roundtrips_set with (fresh sh); [done|apply fresh_inits].
  - apply roundtrips_unordered_set with (fresh sh); [done|apply fresh_inits].
  - by apply roundtrips_pair.
  - apply roundtrips_map with (fresh sh1) (fresh sh2);
      [done|done|apply fresh_inits..].
  - apply roundtrips_unordered_map with (fresh sh1) (fresh sh2);
      [done|done|apply fresh_inits..].
  - exact IHsh.
  - apply roundtrips_optional with (fresh sh); [done|apply fresh_inits].
  - apply roundtrips_tuple_nil.
  - by apply roundtrips_tuple_cons.
Qed.

End RoundTripShapes.

(** The round trip where the encoder is defined: for every shape and
    every value of it that holds no null pointer, encoding into a new file
    and decoding that file into a default-constructed object gives the
    value back and uses up the file, with both streams in good state.
    Sets and maps are compared by their elements, sequences element by
    element, optionals and pointers by presence and payload. *)
Theorem roundtrip_without_null {storage : Storage} {T} (sh : shape T) (v : T) :
  encodable sh v →
  ∃ bs lo,
    put (serial sh) v (fresh_out None) = Done (open_out bs lo)
    ∧ ∀ d, fresh sh d →
        ∃ li, get (serial sh) d (file_in bs) = (v, open_in [] li).
Proof.
  intros Hv. destruct (roundtrips_serial sh v Hv) as (bs & He & Hy).
  destruct (He [] []) as [lo Hput]. exists bs, lo. split; [exact Hput|].
  intros d Hd. destruct (Hy d Hd [] []) as [li Hget].
  exists li. unfold file_in. rewrite <- (app_nil_r bs) at 1. exact Hget.
Qed.

(** A [std::map<char-string, bool>] inside an optional inside a
    [std::unique_ptr], with the first two entries of [data1] of
    SerBinTest.cpp cut to their initials. *)
Lemma roundtrip_without_null_witness :
  let sh := StdUniquePtr (StdOptional
              (StdMap (StdBasicString f_char) (Fundamental f_bool))) in
  let v : option (option (gmap (list byte) bool)) :=
    Some (Some (<[ [x41] := true ]> (<[ [x42] := false ]> ∅))) in
  @encodable _ sh v
  ∧ ∃ bs lo,
      put (@serial zero_filled _ sh) v (fresh_out None)
      = Done (open_out bs lo)
      ∧ ∃ li, get (@serial zero_filled _ sh) None (file_in bs)
              = (v, open_in [] li).
Proof.
  intros sh v.
  assert (Hv : encodable sh v).
  { cbn. split; [by vm_compute|].
    apply map_Forall_insert_2; [|apply map_Forall_insert_2].
    - repeat split; by repeat constructor.
    - repeat split; by repeat constructor.
    - apply map_Forall_empty. }
  split; [exact Hv|].
  destruct (@roundtrip_without_null zero_filled _ sh v Hv)
    as (bs & lo & Hput & Hget).
  exists bs, lo. split; [exact Hput|]. by apply Hget.
Defined.

(** C1 (where the code departs from it): for a [std::vector] of
    [std::unique_ptr<int>] that holds a null pointer, and for a null
    [std::shared_ptr<int>], the encoder has no defined outcome, so there
    are no bytes from which the value could be decoded.  The defect is the
    unguarded [*object] of the pointer encoders. *)
Theorem roundtrip_null_pointer_undefined {storage : Storage} (s : ostream) :
  put (serial (StdVector (StdUniquePtr (Fundamental (f_signed 4)))))
    [Some 1; None] s = Undefined
  ∧ put (serial (StdSharedPtr (Fundamental (f_signed 4)))) None s = Undefined.
Proof. split; reflexivity. Qed.

(** ** Decoding into a container that holds elements *)

Section Keep.
Context {storage : Storage}.






End Keep.



(** * Further properties of the operators *)

(** ** Values written one after another *)

(** Two values written one after another, as [main] of SerBinTest.cpp
    writes [data0], [data1], ..., are read back one after another: the
    first decoder stops exactly where the second value starts, although
    the stream carries no separator. *)
Theorem back_to_back {storage : Storage} {T1 T2}
  (sh1 : shape T1) (sh2 : shape T2) (v1 d1 : T1) (v2 d2 : T2) :
  encodable sh1 v1 → encodable sh2 v2 → fresh sh1 d1 → fresh sh2 d2 →
  ∃ lo s1 li,
    (put (serial sh1) v1 ⨾ put (serial sh2) v2)%W (fresh_out None)
    = Done (open_out (encoding (serial sh1) v1 ++ encoding (serial sh2) v2) lo)
    ∧ get (serial sh1) d1
        (file_in (encoding (serial sh1) v1 ++ encoding (serial sh2) v2))
      = (v1, s1)
    ∧ get (serial sh2) d2 s1 = (v2, open_in [] li).
Proof.
  intros Hv1 Hv2 Hd1 Hd2.
  destruct (roundtrips_serial sh1 v1 Hv1) as (bs1 & He1 & Hy1).
  destruct (roundtrips_serial sh2 v2 Hv2) as (bs2 & He2 & Hy2).
  rewrite (emits_encoding _ _ _ He1), (emits_encoding _ _ _ He2).
  destruct (emits_wseq _ _ _ _ He1 He2 [] []) as [lo Hput].
  destruct (Hy1 d1 Hd1 bs2 []) as [l1 Hget1].
  destruct (Hy2 d2 Hd2 [] l1) as [li Hget2].
  exists lo, (open_in bs2 l1), li. repeat split.
  - exact Hput.
  - exact Hget1.
  - rewrite <- (app_nil_r bs2) at 1. exact Hget2.
Qed.

(** An optional count followed by a string. *)
Lemma back_to_back_witness :
  let sh1 := StdOptional (Fundamental (f_unsigned 8)) in
  let sh2 := StdBasicString f_char in
  ∃ lo s1 li,
    (put (@serial zero_filled _ sh1) (Some 7)
     ⨾ put (@serial zero_filled _ sh2) [x41; x42])%W (fresh_out None)
    = Done (open_out
              (encoding (@serial zero_filled _ sh1) (Some 7)
               ++ encoding (@serial zero_filled _ sh2) [x41; x42]) lo)
    ∧ get (@serial zero_filled _ sh1) None
        (file_in (encoding (@serial zero_filled _ sh1) (Some 7)
                  ++ encoding (@serial zero_filled _ sh2) [x41; x42]))
      = (Some 7, s1)
    ∧ get (@serial zero_filled _ sh2) [] s1 = ([x41; x42], open_in [] li).
Proof.
  intros sh1 sh2.
  apply (@back_to_back zero_filled _ _ sh1 sh2 (Some 7) None [x41; x42] []).
  - cbn. lia.
  - cbn. split; [by vm_compute|by repeat constructor].
  - reflexivity.
  - reflexivity.
Defined.

(** No encoding of a shape is the beginning of the encoding of another
    value of that shape; in particular two values with the same bytes are
    the same value. *)
Theorem encoding_prefix_free {storage : Storage} {T} (sh : shape T)
  (v1 v2 : T) :
  encodable sh v1 → encodable sh v2 →
  encoding (serial sh) v1 `prefix_of` encoding (serial sh) v2 →
  v1 = v2 ∧ encoding (serial sh) v1 = encoding (serial sh) v2.
Proof.
  intros Hv1 Hv2.
  destruct (roundtrips_serial sh v1 Hv1) as (bs1 & He1 & Hy1).
  destruct (roundtrips_serial sh v2 Hv2) as (bs2 & He2 & Hy2).
  rewrite (emits_encoding _ _ _ He1), (emits_encoding _ _ _ He2).
  intros [r ->].
  pose proof (proj1 (fresh_inits sh)) as Hd.
  destruct (Hy1 _ Hd r []) as [l1 Hget1].
  destruct (Hy2 _ Hd [] []) as [l2 Hget2].
  rewrite app_nil_r, Hget1 in Hget2.
  injection Hget2 as -> ->. by rewrite app_nil_r.
Qed.

Lemma encoding_prefix_free_witness :
  let sh := StdVector (Fundamental (f_signed 4)) in
  (@encodable _ sh [1; 2] ∧ @encodable _ sh [1; 2])
  ∧ encoding (@serial zero_filled _ sh) [1; 2]
    `prefix_of` encoding (@serial zero_filled _ sh) [1; 2]
  ∧ ([1; 2] = [1; 2] :> list Z).
Proof.
  intros sh.
  assert (Hv : encodable sh [1; 2]).
  { cbn. split; [by vm_compute|]. repeat constructor; lia. }
  split; [by split|]. split; [reflexivity|].
  exact (proj1 (@encoding_prefix_free zero_filled _ sh [1; 2] [1; 2]
                  Hv Hv (reflexivity _))).
Defined.

(** ** Encoding on a stream in failed state *)

Lemma winert_wret : winert wret.
Proof. by intros s _. Qed.

Lemma winert_wwrite bs : winert (wwrite bs).
Proof. intros s Hs. unfold wwrite. by rewrite stream_write_failed. Qed.

Lemma winert_wseq (w1 w2 : Writer) :
  winert w1 → winert w2 → winert (w1 ⨾ w2)%W.
Proof. intros H1 H2 s Hs. unfold wseq. rewrite (H1 s Hs). by apply H2. Qed.

Lemma winert_put_each {T} (S : Serial T) (ok : T → Prop) (object : list T) :
  winert_on S ok → Forall ok object → winert (put_each S object).
Proof.
  intros HS. induction 1 as [|x object Hx _ IH]; cbn [put_each].
  - apply winert_wret.
  - apply winert_wseq; [by apply HS|apply IH].
Qed.

Lemma winert_bulk {T} (P : Pod T) (object : list T) (b : bool) :
  winert (if b then wwrite (flatten P object) else wret).
Proof. destruct b; [apply winert_wwrite|apply winert_wret]. Qed.

Lemma winert_tuple_put {T} (R : Slots T) (ok : T → Prop) object id :
  slots_winert R ok → ok object → winert (tuple_put R object id).
Proof.
  intros HR Hok. remember (arity R - id)%nat as n eqn:Hn.
  revert id Hn. induction n as [|n IH]; intros id Hn s Hs.
  - by rewrite tuple_put_step, decide_False by lia.
  - rewrite tuple_put_step, decide_True by lia.
    apply winert_wseq; [by apply HR|apply IH; lia|done].
Qed.

Section Inert.
Context {storage : Storage}.

Lemma winert_put_size n : winert (put_size n).
Proof. apply winert_wwrite. Qed.

Lemma winert_serial {T} (sh : shape T) :
  winert_on (serial sh) (null_free sh).
Proof.
  induction sh using shape_mutind
    with (P0 := λ T ts, slots_winert (slots ts) (null_free_slots ts));
    cbn [serial slots null_free null_free_slots]; intros object Hok;
    cbn [put Serial_pod Serial_unique_ptr Serial_shared_ptr Serial_optional
         Serial_basic_string Serial_vector Serial_array Serial_list
         Serial_deque Serial_set Serial_unordered_set Serial_pair Serial_map
         Serial_unordered_map Serial_tuple].
  - apply winert_wwrite.
  - destruct object as [x|]; [|done].
    apply winert_wseq; [apply winert_wwrite|by apply IHsh].
  - destruct object as [x|]; [|done].
    apply winert_wseq; [apply winert_wwrite|by apply IHsh].
  - apply winert_wseq; [apply winert_put_size|apply winert_bulk].
  - unfold vector_put. apply winert_wseq; [apply winert_put_size|].
    destruct (as_pod (serial sh));
      [apply winert_bulk|by apply winert_put_each with (null_free sh)].
  - unfold array_put. case_bool_decide; [|apply winert_wret].
    destruct (as_pod (serial sh));
      [apply winert_wwrite|by apply winert_put_each with (null_free sh)].
  - apply winert_wseq; [apply winert_put_size|].
    by apply winert_put_each with (null_free sh).
  - apply winert_wseq; [apply winert_put_size|].
    by apply winert_put_each with (null_free sh).
  - apply winert_wseq; [apply winert_put_size|].
    apply winert_put_each with (null_free sh); [done|].
    apply Forall_forall. intros x Hx. by apply Hok, elem_of_elements.
  - apply winert_wseq; [apply winert_put_size|].
    apply winert_put_each with (null_free sh); [done|].
    apply Forall_forall. intros x Hx. by apply Hok, elem_of_elements.
  - destruct Hok as [H1 H2].
    apply winert_wseq; [by apply IHsh1|by apply IHsh2].
  - apply winert_wseq; [apply winert_put_size|].
    apply winert_put_each
      with (λ kv, null_free sh1 kv.1 ∧ null_free sh2 kv.2).
    + intros kv [H1 H2]. apply winert_wseq; [by apply IHsh1|by apply IHsh2].
    + apply Forall_forall. intros [k x] Hkx.
      by apply (Hok k x), elem_of_map_to_list.
  - apply winert_wseq; [apply winert_put_size|].
    apply winert_put_each
      with (λ kv, null_free sh1 kv.1 ∧ null_free sh2 kv.2).
    + intros kv [H1 H2]. apply winert_wseq; [by apply IHsh1|by apply IHsh2].
    + apply Forall_forall. intros [k x] Hkx.
      by apply (Hok k x), elem_of_map_to_list.
  - by apply winert_tuple_put with (null_free_slots ts).
  - destruct object as [x|].
    + apply winert_wseq; [apply winert_wwrite|by apply IHsh].
    + apply winert_wseq; [apply winert_wwrite|apply winert_wret].
  - intros id. apply winert_wret.
  - destruct Hok as [H1 H2]. intros [|id]; cbn [put_slot Slots_cons].
    + by apply IHsh.
    + by apply IHsh0.
Qed.

End Inert.

(** Once the output stream is in failed state no encoder writes anything:
    for every shape and every value without a null pointer the call
    returns and the stream comes back as it went in, with nothing added
    to what it had accepted and no [write] answered.  The state of the
    stream does not guard the dereference of the pointer encoders: on a
    null pointer they have no defined outcome on a failed stream either. *)
Theorem failed_output_untouched {storage : Storage} {T} (sh : shape T)
  (object : T) (s : ostream) :
  ofail s = true →
  (null_free sh object → put (serial sh) object s = Done s)
  ∧ put (serial (StdUniquePtr sh)) None s = Undefined
  ∧ put (serial (StdSharedPtr sh)) None s = Undefined.
Proof.
  intros Hs.
  assert (Hflag : ∀ b, put Serial_bool b s = Done s).
  { intros b. by apply winert_wwrite. }
  split; [|split].
  - intros Hok. by apply winert_serial.
  - cbn [serial put Serial_unique_ptr]. unfold unique_ptr_put, wseq.
    by rewrite Hflag.
  - cbn [serial put Serial_shared_ptr]. unfold shared_ptr_put, wseq.
    by rewrite Hflag.
Qed.

(** [data0] of SerBinTest.cpp on a stream whose first [write] came up
    short. *)
Lemma failed_output_untouched_witness :
  let s := {| written := [x03; x00]; room := Some 0%nat; ofail := true;
              olog := [(8, 2)]%nat |} in
  ofail s = true
  ∧ null_free shape_data0 data0
  ∧ put (@serial zero_filled _ shape_data0) data0 s = Done s.
Proof.
  intros s.
  assert (Hnull : null_free shape_data0 data0) by (by repeat constructor).
  split; [reflexivity|]. split; [exact Hnull|].
  exact (proj1 (@failed_output_untouched zero_filled _ shape_data0 data0 s
                  eq_refl) Hnull).
Defined.

(** ** Decoding on a stream in failed state *)

Lemma rinert_mret {A} (a : A) : rinert (mret a).
Proof. by intros s _. Qed.

Lemma rinert_bind {A B} (r : Reader A) (f : A → Reader B) :
  rinert r → (∀ a, rinert (f a)) → rinert (r ≫= f).
Proof.
  intros Hr Hf s Hs. unfold mbind, reader_bind.
  pose proof (Hr s Hs) as E. destruct (r s) as [a s1]; cbn [snd] in E.
  subst s1. by apply Hf.
Qed.

Lemma rinert_rread n dest : rinert (rread n dest).
Proof. intros s Hs. unfold rread. by rewrite stream_read_failed. Qed.

Lemma rinert_rfor {A} n (body : A → Reader A) a :
  (∀ a', rinert (body a')) → rinert (rfor n body a).
Proof.
  intros Hb. revert a. induction n as [|n IH]; intros a; cbn [rfor].
  - apply rinert_mret.
  - apply rinert_bind; [apply Hb|]. intros a'. apply IH.
Qed.

Lemma rinert_get_each {T} (S : Serial T) (object : list T) :
  (∀ x, rinert (get S x)) → rinert (get_each S object).
Proof.
  intros HS. induction object as [|x object IH]; cbn [get_each].
  - apply rinert_mret.
  - apply rinert_bind; [apply HS|]. intros x'.
    apply rinert_bind; [apply IH|]. intros rest'. apply rinert_mret.
Qed.

Lemma rinert_tuple_get {T} (R : Slots T) object id :
  (∀ id' object', rinert (get_slot R id' object')) →
  rinert (tuple_get R object id).
Proof.
  intros HR. remember (arity R - id)%nat as n eqn:Hn.
  revert object id Hn. induction n as [|n IH]; intros object id Hn s.
  - rewrite tuple_get_step, decide_False by lia. by intros _.
  - rewrite tuple_get_step, decide_True by lia.
    apply rinert_bind; [apply HR|]. intros object'. apply IH. lia.
Qed.

Ltac inert_step :=
  lazymatch goal with
  | |- rinert (mret _) => apply rinert_mret
  | |- rinert (_ ≫= _) => apply rinert_bind; [|intros ?]
  | |- rinert (rread _ _) => apply rinert_rread
  | |- rinert (rfor _ _ _) => apply rinert_rfor; intros ?
  | |- rinert (get_each _ _) => apply rinert_get_each; intros ?
  | |- rinert (tuple_get _ _ _) => apply rinert_tuple_get; intros ? ?
  | |- rinert (if ?b then _ else _) => destruct b
  | |- rinert (match ?x with _ => _ end) => destruct x
  | H : ∀ x, rinert (get ?S x) |- rinert (get ?S _) => apply H
  | H : ∀ i x, rinert (get_slot ?R i x) |- rinert (get_slot ?R _ _) => apply H
  end.

Lemma rinert_pod {storage : Storage} {T} (P : Pod T) object :
  rinert (get (Serial_pod P) object).
Proof. cbn [get Serial_pod]. unfold pod_get. repeat inert_step. Qed.

Lemma rinert_get_size {storage : Storage} : rinert get_size.
Proof.
  unfold get_size. apply rinert_bind; [apply rinert_pod|].
  intros s. apply rinert_mret.
Qed.

Lemma rinert_serial {storage : Storage} {T} (sh : shape T) object :
  rinert (get (serial sh) object).
Proof.
  revert object. induction sh using shape_mutind
    with (P0 := λ T ts, ∀ id object, rinert (get_slot (slots ts) id object));
    cbn [serial slots]; intros;
    cbn [get get_slot Serial_pod Serial_unique_ptr Serial_shared_ptr
         Serial_optional Serial_basic_string Serial_vector Serial_array
         Serial_list Serial_deque Serial_set Serial_unordered_set Serial_pair
         Serial_map Serial_unordered_map Serial_tuple Slots_nil Slots_cons];
    unfold pod_get, unique_ptr_get, shared_ptr_get, optional_get,
      basic_string_get, vector_get, array_get, list_get, deque_get,
      push_back_get, set_get, unordered_set_get, insert_get, pair_get,
      map_get, unordered_map_get, emplace_get;
    cbn [get Serial_pair]; unfold pair_get; cbn zeta;
    repeat first [ apply rinert_get_size | apply rinert_pod | inert_step ].
Qed.

(** Once the input stream is in failed state no decoder takes anything
    from it: whatever the shape and the destination, the stream comes back
    as it went in, with the same bytes still pending and nothing asked of
    the file. *)
Theorem failed_input_untouched {storage : Storage} {T} (sh : shape T)
  (object : T) (s : istream) :
  ifail s = true → (get (serial sh) object s).2 = s.
Proof. apply rinert_serial. Qed.

(** A map of strings after a read has failed. *)
Lemma failed_input_untouched_witness :
  let sh := StdMap (StdBasicString f_char) (Fundamental f_bool) in
  let s := {| pending := [x01; x02]; ifail := true; ilog := [(4, 2)]%nat |} in
  ifail s = true ∧ (get (@serial zero_filled _ sh) ∅ s).2 = s.
Proof.
  intros sh s. split; [reflexivity|].
  exact (@failed_input_untouched zero_filled _ sh ∅ s eq_refl).
Defined.

(** ** Files that stop too early *)

Lemma prefix_app_cases {A} (p bs1 bs2 : list A) :
  p `prefix_of` bs1 ++ bs2 → p ≠ bs1 ++ bs2 →
  (p `prefix_of` bs1 ∧ p ≠ bs1)
  ∨ ∃ p2, p = bs1 ++ p2 ∧ p2 `prefix_of` bs2 ∧ p2 ≠ bs2.
Proof.
  intros [k Hk] Hne. apply app_eq_inv in Hk as [(k' & -> & ->)|(k' & -> & ->)].
  - destruct k' as [|x k'].
    + right. exists []. rewrite !app_nil_r in *. split; [done|].
      split; [apply prefix_nil|]. intros <-. by rewrite app_nil_r in Hne.
    + left. split; [by eexists|]. intros E.
      apply (f_equal length) in E. rewrite length_app in E. simpl in E. lia.
  - right. exists k'. split; [done|]. split; [by eexists|].
    intros E. apply Hne. by rewrite E at 1; rewrite <- E.
Qed.

Lemma cut_short_mret {A} (a : A) : cut_short (mret a) [].
Proof. intros p l Hp Hne. by apply prefix_nil_inv in Hp. Qed.

Lemma cut_short_bind {A B} (r : Reader A) (f : A → Reader B) bs1 bs2 a :
  reads r bs1 a → (∀ a', rsurfaces (f a')) → cut_short (f a) bs2 →
  cut_short (r ≫= f) (bs1 ++ bs2).
Proof.
  intros [Hy Hc] Hf Hc2 p l Hp Hne. unfold mbind, reader_bind.
  destruct (prefix_app_cases p bs1 bs2 Hp Hne)
    as [[Hp1 Hne1]|(p2 & -> & Hp2 & Hne2)].
  - pose proof (Hc p l Hp1 Hne1) as Hfail.
    destruct (r (open_in p l)) as [a' s1]; cbn [snd] in Hfail.
    destruct (Hf a' s1) as (ext & _ & Hs). apply Hs. by left.
  - destruct (Hy p2 l) as [l' ->]. by apply Hc2.
Qed.

Lemma reads_mret {A} (a : A) : reads (mret a) [] a.
Proof. split; [apply yields_mret|apply cut_short_mret]. Qed.

Lemma reads_bind {A B} (r : Reader A) (f : A → Reader B) bs1 bs2 a b :
  reads r bs1 a → (∀ a', rsurfaces (f a')) → reads (f a) bs2 b →
  reads (r ≫= f) (bs1 ++ bs2) b.
Proof.
  intros Hr Hf [Hy2 Hc2]. split.
  - eapply yields_bind; [apply Hr|exact Hy2].
  - by eapply cut_short_bind.
Qed.

(** The last step of a reader only builds the result. *)
Lemma reads_bind_ret {A B} (r : Reader A) (g : A → B) bs a :
  reads r bs a → reads (x ← r; mret (g x)) bs (g a).
Proof.
  intros Hr. rewrite <- (app_nil_r bs).
  eapply reads_bind; [exact Hr| |apply reads_mret].
  intros a'. apply rsurfaces_mret.
Qed.

Lemma reads_rread n dest bs :
  length bs = n → (length dest ≤ n)%nat → reads (rread n dest) bs bs.
Proof.
  intros Hn Hd. split; [by apply yields_rread|].
  intros p l Hp Hne. unfold rread, stream_read, open_in; cbn.
  apply bool_decide_eq_true_2. rewrite length_take.
  assert (length p < length bs)%nat; [|lia].
  destruct (decide (length bs ≤ length p)%nat) as [Hle|]; [|lia].
  by apply prefix_length_eq in Hp.
Qed.

Lemma reads_ext {A} (r1 r2 : Reader A) bs a :
  (∀ s, r1 s = r2 s) → reads r2 bs a → reads r1 bs a.
Proof.
  intros E [Hy Hc]. split.
  - by eapply yields_ext.
  - intros p l Hp Hne. rewrite E. by apply Hc.
Qed.

Lemma reads_get_each {T} (S : Serial T) (fr : T → Prop)
  (v ds : list T) (bss : list (list byte)) :
  (∀ d, rsurfaces (get S d)) →
  Forall2 (λ x bs, ∀ d, fr d → reads (get S d) bs x) v bss →
  Forall fr ds → length ds = length v →
  reads (get_each S ds) (mjoin bss) v.
Proof.
  intros HS H. revert ds.
  induction H as [|x bs v bss Hx _ IH]; intros ds Hfr Hlen.
  - destruct ds; [|done]. apply (reads_mret []).
  - destruct ds as [|d ds]; [done|].
    apply Forall_cons in Hfr as [Hd Hds]. cbn [get_each mjoin list_join].
    eapply reads_bind; [by apply Hx| |].
    + intros x'. apply rsurfaces_bind; [by apply rsurfaces_get_each|].
      intros rest'. apply rsurfaces_mret.
    + apply (reads_bind_ret _ (λ rest', x :: rest')).
      apply IH; [done|by injection Hlen].
Qed.

Lemma reads_rfor {A B} (body : A → Reader A) (step : A → B → A)
  (l : list B) (bss : list (list byte)) :
  (∀ acc, rsurfaces (body acc)) →
  Forall2 (λ x bs, ∀ acc, reads (body acc) bs (step acc x)) l bss →
  ∀ acc, reads (rfor (length l) body acc) (mjoin bss) (foldl step acc l).
Proof.
  intros Hb. induction 1 as [|x bs l bss Hx _ IH]; intros acc.
  - apply (reads_mret acc).
  - cbn [length rfor mjoin list_join foldl].
    eapply reads_bind; [apply Hx| |apply IH].
    intros acc'. by apply rsurfaces_rfor.
Qed.

Lemma rsurfaces_pod {storage : Storage} {T} (P : Pod T) object :
  rsurfaces (get (Serial_pod P) object).
Proof. apply surfacing_pod. Qed.

Ltac surfs :=
  repeat first
    [ apply rsurfaces_get_size | apply rsurfaces_get_flag
    | apply rsurfaces_pod | apply rsurfaces_push_back_get; assumption
    | surf_step ].

Section Decodes.
Context {storage : Storage}.

Lemma reads_pod {T} (f : fundamental T) (v d : T) :
  in_range f v → reads (get (Serial_pod (pod_of f)) d) (repr (pod_of f) v) v.
Proof.
  intros Hv. cbn [get Serial_pod]. unfold pod_get.
  rewrite <- (pod_of_unrepr f v Hv) at 2.
  apply (reads_bind_ret _ (unrepr (pod_of f))).
  apply reads_rread; [apply pod_of_length|]. by rewrite pod_of_length.
Qed.

Lemma reads_flag (b d : bool) :
  reads (get Serial_bool d) [if b then x01 else x00] b.
Proof. by apply (reads_pod f_bool). Qed.

Lemma reads_get_size n :
  fits_size_t n → reads get_size (le_bytes 8 (Z.of_nat n)) n.
Proof.
  intros Hn. unfold get_size. rewrite <- (Nat2Z.id n) at 2.
  apply (reads_bind_ret _ Z.to_nat).
  apply (reads_pod (f_unsigned 8)). unfold fits_size_t in Hn. simpl. lia.
Qed.

Lemma decodes_fundamental {T} (f : fundamental T) :
  decodes (Serial_pod (pod_of f)) (in_range f) (λ _, True).
Proof.
  intros v Hv. exists (repr (pod_of f) v).
  split; [apply emits_wwrite|]. intros d _. by apply reads_pod.
Qed.

Lemma reads_present {T} (S : Serial T) (x : T) (d : option T) bs :
  surfacing S → reads (get S (value_init S)) bs x →
  reads (hasValue ← get Serial_bool (default_init Serial_bool);
         if hasValue : bool
         then y ← get S (value_init S); mret (Some y)
         else mret d) (x01 :: bs) (Some x).
Proof.
  intros HS Hx.
  apply (reads_bind _ _ [x01] bs true); [apply (reads_flag true)| |].
  - intros b. surfs.
  - by apply (reads_bind_ret _ Some).
Qed.

Lemma emits_present {T} (S : Serial T) (x : T) bs :
  emits (put S x) bs →
  emits (put Serial_bool true ⨾ deref (Some x) (put S))%W (x01 :: bs).
Proof.
  intros He.
  apply (emits_wseq _ _ [x01] bs); [apply (flag_roundtrip true true)|done].
Qed.

Lemma decodes_unique_ptr {T} (S : Serial T) (ok fr : T → Prop) :
  surfacing S → decodes S ok fr → fr (value_init S) →
  decodes (Serial_unique_ptr S)
    (λ v, match v with Some x => ok x | None => False end) (λ d, d = None).
Proof.
  intros Hsf HS Hinit [x|] Hv; [|done]. destruct (HS x Hv) as (bs & He & Hr).
  exists (x01 :: bs). split; [exact (emits_present S x bs He)|].
  intros d _. exact (reads_present S x d bs Hsf (Hr _ Hinit)).
Qed.

Lemma decodes_shared_ptr {T} (S : Serial T) (ok fr : T → Prop) :
  surfacing S → decodes S ok fr → fr (value_init S) →
  decodes (Serial_shared_ptr S)
    (λ v, match v with Some x => ok x | None => False end) (λ d, d = None).
Proof.
  intros Hsf HS Hinit [x|] Hv; [|done]. destruct (HS x Hv) as (bs & He & Hr).
  exists (x01 :: bs). split; [exact (emits_present S x bs He)|].
  intros d _. exact (reads_present S x d bs Hsf (Hr _ Hinit)).
Qed.

Lemma decodes_optional {T} (S : Serial T) (ok fr : T → Prop) :
  surfacing S → decodes S ok fr → fr (value_init S) →
  decodes (Serial_optional S)
    (λ v, match v with Some x => ok x | None => True end) (λ d, d = None).
Proof.
  intros Hsf HS Hinit [x|] Hv.
  - destruct (HS x Hv) as (bs & He & Hr).
    exists (x01 :: bs). split; [exact (emits_present S x bs He)|].
    intros d _. exact (reads_present S x d bs Hsf (Hr _ Hinit)).
  - exists [x00]. split; [|intros d ->].
    + apply (emits_wseq _ _ [x00] []); [|apply emits_wret].
      apply (flag_roundtrip false true).
    + cbn [get Serial_optional]. unfold optional_get.
      apply (reads_bind _ _ [x00] [] false); [apply (reads_flag false)| |].
      * intros b. surfs.
      * apply reads_mret.
Qed.

Lemma reads_pair {T0 T1} (S0 : Serial T0) (S1 : Serial T1)
  d0 d1 a b bs0 bs1 :
  surfacing S1 →
  reads (get S0 d0) bs0 a → reads (get S1 d1) bs1 b →
  reads (get (Serial_pair S0 S1) (d0, d1)) (bs0 ++ bs1) (a, b).
Proof.
  intros HS1 H0 H1. cbn [get Serial_pair]. unfold pair_get. cbn [fst snd].
  eapply reads_bind; [exact H0| |].
  - intros a'. surfs.
  - by apply (reads_bind_ret _ (λ b', (a, b'))).
Qed.

Lemma decodes_pair {T0 T1} (S0 : Serial T0) (S1 : Serial T1)
  (ok0 fr0 : T0 → Prop) (ok1 fr1 : T1 → Prop) :
  surfacing S1 → decodes S0 ok0 fr0 → decodes S1 ok1 fr1 →
  decodes (Serial_pair S0 S1)
    (λ v, ok0 v.1 ∧ ok1 v.2) (λ d, fr0 d.1 ∧ fr1 d.2).
Proof.
  intros Hsf H0 H1 [a b] [Ha Hb]; cbn [fst snd] in *.
  destruct (H0 a Ha) as (bs0 & He0 & Hr0).
  destruct (H1 b Hb) as (bs1 & He1 & Hr1).
  exists (bs0 ++ bs1). split; [by apply emits_pair|].
  intros [d0 d1] [Hd0 Hd1]. apply reads_pair; auto.
Qed.

Lemma decodes_tuple_nil :
  decodes (Serial_tuple Slots_nil) (λ _, True) (λ _, True).
Proof.
  intros [] _. exists []. split; [apply emits_tuple_nil|].
  intros [] _. eapply reads_ext; [|apply (reads_mret ())].
  intros s. cbn [get Serial_tuple]. by rewrite tuple_get_step.
Qed.

Lemma decodes_tuple_cons {A B} (S : Serial A) (R : Slots B)
  (ok fr : A → Prop) (okR frR : B → Prop) :
  surfacing (Serial_tuple R) →
  decodes S ok fr → decodes (Serial_tuple R) okR frR →
  decodes (Serial_tuple (Slots_cons S R))
    (λ v, ok v.1 ∧ okR v.2) (λ d, fr d.1 ∧ frR d.2).
Proof.
  intros Hsf H0 H1 [a t] [Ha Ht]; cbn [fst snd] in *.
  destruct (H0 a Ha) as (bs0 & He0 & Hr0).
  destruct (H1 t Ht) as (bs1 & He1 & Hr1).
  exists (bs0 ++ bs1). split; [by apply emits_tuple_cons|].
  intros [d dt] [Hd Hdt]; cbn [fst snd] in *.
  eapply reads_ext; [apply tuple_get_cons|].
  eapply reads_bind; [by apply Hr0| |].
  - intros a'. surfs.
  - apply (reads_bind_ret _ (λ t', (a, t'))). by apply Hr1.
Qed.

End Decodes.

Section DecodesContainers.
Context {storage : Storage}.

Lemma reads_bulk {T} (f : fundamental T) (v d : list T) (n : nat) :
  Forall (in_range f) v → length v = n → (length d ≤ n)%nat →
  reads (bs ← rread (sizeof (pod_of f) * n) (flatten (pod_of f) d);
         mret (unflatten (pod_of f) n bs))
    (flatten (pod_of f) v) v.
Proof.
  intros Hv Hn Hd. rewrite <- (unflatten_flatten f v Hv) at 2. rewrite Hn.
  apply (reads_bind_ret _ (unflatten (pod_of f) n)).
  apply reads_rread; rewrite length_flatten; [by rewrite Hn|].
  apply Nat.mul_le_mono_l, Hd.
Qed.

Lemma decodes_each {T} (S : Serial T) (ok fr : T → Prop) (v : list T) :
  decodes S ok fr → Forall ok v →
  ∃ bss,
    Forall2 (λ x bs, emits (put S x) bs) v bss
    ∧ Forall2 (λ x bs, ∀ d, fr d → reads (get S d) bs x) v bss.
Proof.
  intros HS Hv.
  destruct (Forall_exists_Forall2
              (λ x bs, emits (put S x) bs ∧ ∀ d, fr d → reads (get S d) bs x) v)
    as [bss Hbss].
  { eapply Forall_impl; [exact Hv|]. intros x Hx. by apply HS. }
  exists bss. split; (eapply Forall2_impl; [exact Hbss|]); by intros x bs [? ?].
Qed.

Lemma decodes_basic_string {T} (f : fundamental T) :
  decodes (Serial_basic_string (pod_of f))
    (λ v, fits_size_t (length v) ∧ Forall (in_range f) v) (λ d, d = []).
Proof.
  intros v [Hfit Hv].
  exists (le_bytes 8 (Z.of_nat (length v)) ++ flatten (pod_of f) v).
  split.
  - apply emits_wseq; [apply emits_put_size|].
    case_bool_decide as Hlen; [apply emits_wwrite|].
    destruct v; [apply emits_wret|simpl in Hlen; lia].
  - intros d ->. cbn [get Serial_basic_string]. unfold basic_string_get.
    eapply reads_bind; [by apply reads_get_size| |].
    + intros s. cbn zeta. surfs.
    + case_bool_decide as Hlen.
      * cbn zeta. rewrite length_resize, (Nat.mul_comm (length v)).
        apply reads_bulk; [done..|]. by rewrite length_resize.
      * destruct v; [apply (reads_mret [])|simpl in Hlen; lia].
Qed.

Lemma decodes_vector_pod {T} (f : fundamental T) :
  decodes (Serial_vector (Serial_pod (pod_of f)))
    (λ v, fits_size_t (length v) ∧ Forall (in_range f) v) (λ d, d = []).
Proof.
  intros v [Hfit Hv].
  exists (le_bytes 8 (Z.of_nat (length v)) ++ flatten (pod_of f) v).
  split.
  - apply emits_wseq; [apply emits_put_size|]. cbn [as_pod Serial_pod].
    case_bool_decide as Hlen; [apply emits_wwrite|].
    destruct v; [apply emits_wret|simpl in Hlen; lia].
  - intros d ->. cbn [get Serial_vector]. unfold vector_get.
    cbn [as_pod Serial_pod].
    eapply reads_bind; [by apply reads_get_size| |].
    + intros s. cbn zeta. surfs.
    + case_bool_decide as Hlen.
      * destruct v; [apply (reads_mret [])|done].
      * cbn zeta. apply reads_bulk; [done..|]. by rewrite length_resize.
Qed.

Lemma decodes_vector_each {T} (S : Serial T) (ok fr : T → Prop) :
  as_pod S = None → surfacing S → decodes S ok fr → fr (value_init S) →
  decodes (Serial_vector S)
    (λ v, fits_size_t (length v) ∧ Forall ok v) (λ d, d = []).
Proof.
  intros Hpod Hsf HS Hinit v [Hfit Hv].
  destruct (decodes_each S ok fr v HS Hv) as (bss & He & Hr).
  exists (le_bytes 8 (Z.of_nat (length v)) ++ mjoin bss). split.
  - cbn [put Serial_vector]. unfold vector_put. rewrite Hpod.
    apply emits_wseq; [apply emits_put_size|by apply emits_put_each].
  - intros d ->. cbn [get Serial_vector]. unfold vector_get. rewrite Hpod.
    eapply reads_bind; [by apply reads_get_size| |].
    + intros s. cbn zeta. surfs.
    + case_bool_decide as Hlen.
      * destruct v; [|done]. apply Forall2_nil_inv_l in Hr as ->.
        apply (reads_mret []).
      * cbn zeta. eapply reads_get_each; [apply Hsf|exact Hr| |].
        -- rewrite resize_nil. by apply Forall_replicate.
        -- by rewrite length_resize.
Qed.

Lemma decodes_array_pod {T} (f : fundamental T) (N : nat) :
  decodes (Serial_array (Serial_pod (pod_of f)) N)
    (λ v, length v = N ∧ Forall (in_range f) v)
    (λ d, length d = N ∧ Forall (λ _, True) d).
Proof.
  intros v [Hlen Hv]. exists (flatten (pod_of f) v). split.
  - cbn [put Serial_array]. unfold array_put. cbn [as_pod Serial_pod].
    case_bool_decide as HN; [apply emits_wwrite|].
    destruct v; [apply emits_wret|simpl in Hlen; lia].
  - intros d [Hd _]. cbn [get Serial_array]. unfold array_get.
    cbn [as_pod Serial_pod]. case_bool_decide as HN.
    + apply reads_bulk; [done..|lia].
    + destruct v, d; try (simpl in *; lia). apply (reads_mret []).
Qed.

Lemma decodes_array_each {T} (S : Serial T) (ok fr : T → Prop) (N : nat) :
  as_pod S = None → surfacing S → decodes S ok fr →
  decodes (Serial_array S N)
    (λ v, length v = N ∧ Forall ok v) (λ d, length d = N ∧ Forall fr d).
Proof.
  intros Hpod Hsf HS v [Hlen Hv].
  destruct (decodes_each S ok fr v HS Hv) as (bss & He & Hr).
  exists (mjoin bss). split.
  - cbn [put Serial_array]. unfold array_put. rewrite Hpod.
    case_bool_decide as HN; [by apply emits_put_each|].
    destruct v; [|simpl in Hlen; lia]. apply Forall2_nil_inv_l in He as ->.
    apply emits_wret.
  - intros d [Hd Hfr]. cbn [get Serial_array]. unfold array_get.
    rewrite Hpod. case_bool_decide as HN.
    + eapply reads_get_each; [apply Hsf|exact Hr|done|lia].
    + destruct v, d; try (simpl in *; lia).
      apply Forall2_nil_inv_l in Hr as ->. apply (reads_mret []).
Qed.

Lemma reads_push_back {T} (S : Serial T) (l : list T) bss acc :
  surfacing S →
  Forall2 (λ x bs, reads (get S (value_init S)) bs x) l bss →
  reads (rfor (length l) (push_back_get S) acc) (mjoin bss) (acc ++ l).
Proof.
  intros Hsf H. rewrite <- foldl_push_back.
  apply (reads_rfor (push_back_get S) (λ acc x, acc ++ [x])).
  - intros acc'. by apply rsurfaces_push_back_get.
  - eapply Forall2_impl; [exact H|]. intros x bs Hx acc'.
    unfold push_back_get. by apply (reads_bind_ret _ (λ back, acc' ++ [back])).
Qed.

Lemma decodes_list {T} (S : Serial T) (ok fr : T → Prop) :
  surfacing S → decodes S ok fr → fr (value_init S) →
  decodes (Serial_list S)
    (λ v, fits_size_t (length v) ∧ Forall ok v) (λ d, d = []).
Proof.
  intros Hsf HS Hinit v [Hfit Hv].
  destruct (decodes_each S ok fr v HS Hv) as (bss & He & Hr).
  exists (le_bytes 8 (Z.of_nat (length v)) ++ mjoin bss). split.
  - apply emits_wseq; [apply emits_put_size|by apply emits_put_each].
  - intros d ->. cbn [get Serial_list]. unfold list_get.
    eapply reads_bind; [by apply reads_get_size| |].
    + intros s. surfs.
    + apply (reads_push_back S v bss []); [done|].
      eapply Forall2_impl; [exact Hr|]. intros x bs Hx. by apply Hx.
Qed.

Lemma decodes_deque {T} (S : Serial T) (ok fr : T → Prop) :
  surfacing S → decodes S ok fr → fr (value_init S) →
  decodes (Serial_deque S)
    (λ v, fits_size_t (length v) ∧ Forall ok v) (λ d, d = []).
Proof. apply decodes_list. Qed.

Lemma rsurfaces_insert_get `{Countable T} (S : Serial T) object :
  surfacing S → rsurfaces (insert_get S object).
Proof. intros HS. unfold insert_get. surfs. Qed.

Lemma reads_insert `{Countable T} (S : Serial T) (l : list T) bss acc :
  surfacing S →
  Forall2 (λ x bs, reads (get S (default_init S)) bs x) l bss →
  reads (rfor (length l) (insert_get S) acc) (mjoin bss)
    (acc ∪ list_to_set l).
Proof.
  intros Hsf Hl. rewrite <- foldl_insert.
  apply (reads_rfor (insert_get S) (λ acc x, {[x]} ∪ acc)).
  - intros acc'. by apply rsurfaces_insert_get.
  - eapply Forall2_impl; [exact Hl|]. intros x bs Hx acc'.
    unfold insert_get. by apply (reads_bind_ret _ (λ value, {[value]} ∪ acc')).
Qed.

Lemma decodes_set `{Countable T} (S : Serial T) (ok fr : T → Prop) :
  surfacing S → decodes S ok fr → fr (default_init S) →
  decodes (Serial_set S)
    (λ v, fits_size_t (size v) ∧ set_Forall ok v) (λ d, d = ∅).
Proof.
  intros Hsf HS Hinit v [Hfit Hv].
  assert (Hel : Forall ok (elements v)).
  { apply Forall_forall. intros x Hx. by apply Hv, elem_of_elements. }
  destruct (decodes_each S ok fr _ HS Hel) as (bss & He & Hr).
  exists (le_bytes 8 (Z.of_nat (size v)) ++ mjoin bss). split.
  - apply emits_wseq; [apply emits_put_size|by apply emits_put_each].
  - intros d ->. cbn [get Serial_set]. unfold set_get.
    eapply reads_bind; [by apply reads_get_size| |].
    + intros s. apply rsurfaces_rfor. intros acc.
      by apply rsurfaces_insert_get.
    + rewrite <- (list_to_set_elements_L v) at 2.
      rewrite <- (left_id_L ∅ (∪) (list_to_set (elements v))).
      apply (reads_insert S (elements v) bss ∅); [done|].
      eapply Forall2_impl; [exact Hr|]. intros x bs Hx. by apply Hx.
Qed.

Lemma decodes_unordered_set `{Countable T} (S : Serial T)
  (ok fr : T → Prop) :
  surfacing S → decodes S ok fr → fr (default_init S) →
  decodes (Serial_unordered_set S)
    (λ v, fits_size_t (size v) ∧ set_Forall ok v) (λ d, d = ∅).
Proof. apply decodes_set. Qed.

Lemma rsurfaces_emplace_get `{Countable K} {V}
  (SK : Serial K) (SV : Serial V) object :
  surfacing SK → surfacing SV → rsurfaces (emplace_get SK SV object).
Proof.
  intros HK HV. pose proof (surfacing_pair SK SV HK HV) as HP.
  unfold emplace_get. surfs.
Qed.

Lemma reads_emplace `{Countable K} {V} (SK : Serial K) (SV : Serial V)
  (l : list (K * V)) bss acc :
  surfacing SK → surfacing SV →
  Forall2 (λ kv bs,
             reads (get (Serial_pair SK SV)
                      (default_init (Serial_pair SK SV))) bs kv) l bss →
  reads (rfor (length l) (emplace_get SK SV) acc) (mjoin bss)
    (acc ∪ list_to_map l).
Proof.
  intros HK HV Hl. rewrite <- foldl_emplace.
  apply (reads_rfor (emplace_get SK SV) (λ acc kv, map_emplace kv acc)).
  - intros acc'. by apply rsurfaces_emplace_get.
  - eapply Forall2_impl; [exact Hl|]. intros kv bs Hkv acc'.
    unfold emplace_get.
    by apply (reads_bind_ret _ (λ kv', map_emplace kv' acc')).
Qed.

Lemma decodes_map `{Countable K} {V} (SK : Serial K) (SV : Serial V)
  (okK frK : K → Prop) (okV frV : V → Prop) :
  surfacing SK → surfacing SV →
  decodes SK okK frK → decodes SV okV frV →
  frK (value_init SK) → frV (value_init SV) →
  decodes (Serial_map SK SV)
    (λ v, fits_size_t (size v) ∧ map_Forall (λ key x, okK key ∧ okV x) v)
    (λ d, d = ∅).
Proof.
  intros HsK HsV HK HV HiK HiV v [Hfit Hv].
  pose proof (decodes_pair SK SV okK frK okV frV HsV HK HV) as HP.
  assert (Hel : Forall (λ kv, okK kv.1 ∧ okV kv.2) (map_to_list v)).
  { apply Forall_forall. intros [k x] Hkx. cbn [fst snd].
    by apply (Hv k x), elem_of_map_to_list. }
  destruct (decodes_each _ _ _ _ HP Hel) as (bss & He & Hr).
  exists (le_bytes 8 (Z.of_nat (size v)) ++ mjoin bss). split.
  - apply emits_wseq; [apply emits_put_size|by apply emits_put_each].
  - intros d ->. cbn [get Serial_map]. unfold map_get.
    eapply reads_bind; [by apply reads_get_size| |].
    + intros s. apply rsurfaces_rfor. intros acc.
      by apply rsurfaces_emplace_get.
    + rewrite <- (list_to_map_to_list v) at 2.
      rewrite <- (left_id_L ∅ (∪) (list_to_map (map_to_list v))).
      rewrite <- (length_map_to_list v).
      apply (reads_emplace SK SV (map_to_list v) bss ∅); [done..|].
      eapply Forall2_impl; [exact Hr|]. intros kv bs Hkv. by apply Hkv.
Qed.

Lemma decodes_unordered_map `{Countable K} {V}
  (SK : Serial K) (SV : Serial V)
  (okK frK : K → Prop) (okV frV : V → Prop) :
  surfacing SK → surfacing SV →
  decodes SK okK frK → decodes SV okV frV →
  frK (value_init SK) → frV (value_init SV) →
  decodes (Serial_unordered_map SK SV)
    (λ v, fits_size_t (size v) ∧ map_Forall (λ key x, okK key ∧ okV x) v)
    (λ d, d = ∅).
Proof. apply decodes_map. Qed.

Lemma decodes_serial {T} (sh : shape T) :
  decodes (serial sh) (encodable sh) (fresh sh).
Proof.
  induction sh using shape_mutind
    with (P0 := λ T ts,
            decodes (Serial_tuple (slots ts))
              (encodable_slots ts) (fresh_slots ts));
    cbn [serial slots encodable encodable_slots fresh fresh_slots].
  - apply decodes_fundamental.
  - apply decodes_unique_ptr with (fresh sh);
      [apply surfacing_serial|done|apply fresh_inits].
  - apply decodes_shared_ptr with (fresh sh);
      [apply surfacing_serial|done|apply fresh_inits].
  - apply decodes_basic_string.
  - destruct (shape_pod_cases sh) as [[f ->]|Hnone].
    + apply decodes_vector_pod.
    + apply decodes_vector_each with (fresh sh);
        [done|apply surfacing_serial|done|apply fresh_inits].
  - destruct (shape_pod_cases sh) as [[f ->]|Hnone].
    + apply decodes_array_pod.
    + apply decodes_array_each; [done|apply surfacing_serial|done].
  - apply decodes_list with (fresh sh);
      [apply surfacing_serial|done|apply fresh_inits].
  - apply decodes_deque with (fresh sh);
      [apply surfacing_serial|done|apply fresh_inits].
  - apply decodes_set with (fresh sh);
      [apply surfacing_serial|done|apply fresh_inits].
  - apply decodes_unordered_set with (fresh sh);
      [apply surfacing_serial|done|apply fresh_inits].
  - apply decodes_pair; [apply surfacing_serial|done..].
  - apply decodes_map with (fresh sh1) (fresh sh2);
      [apply surfacing_serial|apply surfacing_serial|done|done
      |apply fresh_inits|apply fresh_inits].
  - apply decodes_unordered_map with (fresh sh1) (fresh sh2);
      [apply surfacing_serial|apply surfacing_serial|done|done
      |apply fresh_inits|apply fresh_inits].
  - exact IHsh.
  - apply decodes_optional with (fresh sh);
      [apply surfacing_serial|done|apply fresh_inits].
  - apply decodes_tuple_nil.
  - apply decodes_tuple_cons; [|done..].
    apply (surfacing_serial (StdTuple ts)).
Qed.

End DecodesContainers.

(** A file that stops anywhere inside the encoding of a value is never
    taken for a complete one: for every shape, decoding it into a
    default-constructed object hands the stream back in failed state. *)
Theorem truncated_file_detected {storage : Storage} {T} (sh : shape T)
  (v d : T) (p : list byte) :
  encodable sh v → fresh sh d →
  p `prefix_of` encoding (serial sh) v → p ≠ encoding (serial sh) v →
  ifail (get (serial sh) d (file_in p)).2 = true.
Proof.
  intros Hv Hd. destruct (decodes_serial sh v Hv) as (bs & He & Hr).
  rewrite (emits_encoding _ _ _ He). intros Hp Hne.
  by apply (proj2 (Hr d Hd) p []).
Qed.

(** [data0] with the last byte of 7890 missing. *)
Lemma truncated_file_detected_witness :
  let bs := [x03; x00; x00; x00; x00; x00; x00; x00;
             x00; x01; xc8; x01; x00; x00; x01; xd2; x1e; x00] in
  (encodable shape_data0 data0 ∧ fresh shape_data0 [])
  ∧ (bs `prefix_of` encoding (@serial zero_filled _ shape_data0) data0
     ∧ bs ≠ encoding (@serial zero_filled _ shape_data0) data0)
  ∧ ifail (get (@serial zero_filled _ shape_data0) [] (file_in bs)).2 = true.
Proof.
  intros bs.
  assert (Hv : encodable shape_data0 data0).
  { cbn. split; [by vm_compute|]. repeat constructor; lia. }
  assert (Hp : bs `prefix_of` encoding (@serial zero_filled _ shape_data0) data0).
  { exists [x00]. by vm_compute. }
  assert (Hne : bs ≠ encoding (@serial zero_filled _ shape_data0) data0).
  { by vm_compute. }
  split; [by split|]. split; [by split|].
  exact (@truncated_file_detected zero_filled _ shape_data0 data0 [] bs
           Hv eq_refl Hp Hne).
Defined.

(** ** Sequences on the wire *)

Section Sequences.
Context {storage : Storage}.

Lemma emits_put_each_pod {T} (P : Pod T) (v : list T) :
  emits (put_each (Serial_pod P) v) (flatten P v).
Proof.
  induction v as [|x v IH]; [apply emits_wret|].
  change (flatten P (x :: v)) with (repr P x ++ flatten P v).
  cbn [put_each]. apply emits_wseq; [apply emits_wwrite|exact IH].
Qed.

Lemma emits_vector_pod {T} (P : Pod T) (v : list T) :
  emits (put (Serial_vector (Serial_pod P)) v)
    (le_bytes 8 (Z.of_nat (length v)) ++ flatten P v).
Proof.
  cbn [put Serial_vector]. unfold vector_put. cbn [as_pod Serial_pod].
  apply emits_wseq; [apply emits_put_size|].
  case_bool_decide as Hlen; [apply emits_wwrite|].
  destruct v; [apply emits_wret|simpl in Hlen; lia].
Qed.

Lemma emits_basic_string {T} (P : Pod T) (v : list T) :
  emits (put (Serial_basic_string P) v)
    (le_bytes 8 (Z.of_nat (length v)) ++ flatten P v).
Proof.
  cbn [put Serial_basic_string]. unfold basic_string_put.
  apply emits_wseq; [apply emits_put_size|].
  case_bool_decide as Hlen; [apply emits_wwrite|].
  destruct v; [apply emits_wret|simpl in Hlen; lia].
Qed.

(** What the three sequence encoders write for the same elements. *)
Lemma encoding_list_vector {T} (e : shape T) (v : list T) :
  encoding (serial (StdList e)) v = encoding (serial (StdVector e)) v
  ∧ encoding (serial (StdDeque e)) v = encoding (serial (StdVector e)) v.
Proof.
  destruct (shape_pod_cases e) as [[f ->]|Hnone].
  - cbn [serial].
    rewrite (emits_encoding _ _ _ (emits_vector_pod (pod_of f) v)).
    split; apply emits_encoding;
      (apply emits_wseq; [apply emits_put_size|apply emits_put_each_pod]).
  - unfold encoding. cbn [serial put Serial_list Serial_deque Serial_vector].
    unfold list_put, deque_put, vector_put. by rewrite Hnone.
Qed.

End Sequences.

(** A [std::vector], a [std::list] and a [std::deque] with the same
    elements are written as the same bytes, also when the vector takes the
    bulk path; so a sequence written from one of them can be read into
    another. *)
Theorem sequences_share_format {storage : Storage} {T} (e : shape T)
  (v : list T) :
  fits_size_t (length v) → Forall (encodable e) v →
  encoding (serial (StdList e)) v = encoding (serial (StdVector e)) v
  ∧ encoding (serial (StdDeque e)) v = encoding (serial (StdVector e)) v
  ∧ (∃ li, get (serial (StdList e)) []
             (file_in (encoding (serial (StdVector e)) v))
           = (v, open_in [] li))
  ∧ (∃ li, get (serial (StdVector e)) []
             (file_in (encoding (serial (StdDeque e)) v))
           = (v, open_in [] li)).
Proof.
  intros Hfit Hv. destruct (encoding_list_vector e v) as [El Ed].
  split; [exact El|]. split; [exact Ed|]. split.
  - rewrite <- El.
    destruct (roundtrips_serial (StdList e) v (conj Hfit Hv)) as (bs & He & Hy).
    rewrite (emits_encoding _ _ _ He).
    destruct (Hy [] eq_refl [] []) as [li Hget]. exists li.
    unfold file_in. rewrite <- (app_nil_r bs) at 1. exact Hget.
  - rewrite Ed.
    destruct (roundtrips_serial (StdVector e) v (conj Hfit Hv))
      as (bs & He & Hy).
    rewrite (emits_encoding _ _ _ He).
    destruct (Hy [] eq_refl [] []) as [li Hget]. exists li.
    unfold file_in. rewrite <- (app_nil_r bs) at 1. exact Hget.
Qed.

Lemma sequences_share_format_witness :
  let e := Fundamental (f_signed 4) in
  (fits_size_t (length [7; -1]) ∧ Forall (encodable e) [7; -1])
  ∧ encoding (@serial zero_filled _ (StdList e)) [7; -1]
    = encoding (@serial zero_filled _ (StdVector e)) [7; -1].
Proof.
  intros e.
  assert (Hfit : fits_size_t (length [7; -1])) by (by vm_compute).
  assert (Hv : Forall (encodable e) [7; -1]) by (repeat constructor; lia).
  split; [by split|].
  exact (proj1 (@sequences_share_format zero_filled _ e [7; -1] Hfit Hv)).
Defined.

(** The bytes of a sequence read as a [std::set] or a [std::map] whose
    element or key type holds no pointer: the elements are inserted in
    the order of the stream, so equal elements fall together and, of two
    entries with the same key, the one that comes first in the stream
    stays.  (Keys that hold pointers are told apart by address, and every
    decoded pointer is a new allocation.) *)
Theorem sequence_read_as_set_or_map {storage : Storage}
  `{Countable K} {V} (k : shape K) (e : shape V)
  (keys : list K) (entries : list (K * V)) :
  pointer_free k = true →
  fits_size_t (length keys) → Forall (encodable k) keys →
  fits_size_t (length entries) →
  Forall (encodable (StdPair k e)) entries →
  (∃ li, get (serial (StdSet k)) ∅
           (file_in (encoding (serial (StdList k)) keys))
         = (list_to_set keys, open_in [] li))
  ∧ (∃ li, get (serial (StdMap k e)) ∅
             (file_in (encoding (serial (StdList (StdPair k e))) entries))
           = (list_to_map entries, open_in [] li))
  ∧ (∀ key x rest, entries = (key, x) :: rest →
       (get (serial (StdMap k e)) ∅
          (file_in (encoding (serial (StdList (StdPair k e))) entries))).1
       !! key = Some x).
Proof.
  intros _ Hfk Hkeys Hfe Hentries.
  assert (Hset : ∃ li, get (serial (StdSet k)) ∅
                         (file_in (encoding (serial (StdList k)) keys))
                       = (list_to_set keys, open_in [] li)).
  { destruct (roundtrips_each (serial k) _ _ keys (roundtrips_serial k) Hkeys)
      as (bss & He & Hy).
    rewrite (emits_encoding _ _ (le_bytes 8 (Z.of_nat (length keys)) ++ mjoin bss)).
    2:{ apply emits_wseq; [apply emits_put_size|by apply emits_put_each]. }
    assert (Hyield : yields (get (serial (StdSet k)) ∅)
                       (le_bytes 8 (Z.of_nat (length keys)) ++ mjoin bss)
                       (list_to_set keys)).
    { cbn [serial get Serial_set]. unfold set_get.
      eapply yields_bind; [by apply yields_get_size|].
      rewrite <- (left_id_L ∅ (∪) (list_to_set keys)).
      apply (yields_insert (serial k) keys bss ∅).
      eapply Forall2_impl; [exact Hy|]. intros x bs Hx.
      apply Hx, fresh_inits. }
    destruct (Hyield [] []) as [li Hget]. exists li.
    unfold file_in. rewrite <- (app_nil_r (_ ++ _)) at 1. exact Hget. }
  assert (Hmap : ∃ li, get (serial (StdMap k e)) ∅
                         (file_in (encoding (serial (StdList (StdPair k e)))
                                     entries))
                       = (list_to_map entries, open_in [] li)).
  { destruct (roundtrips_each (serial (StdPair k e)) _ _ entries
                (roundtrips_serial (StdPair k e)) Hentries)
      as (bss & He & Hy).
    rewrite (emits_encoding _ _
               (le_bytes 8 (Z.of_nat (length entries)) ++ mjoin bss)).
    2:{ apply emits_wseq; [apply emits_put_size|by apply emits_put_each]. }
    assert (Hyield : yields (get (serial (StdMap k e)) ∅)
                       (le_bytes 8 (Z.of_nat (length entries)) ++ mjoin bss)
                       (list_to_map entries)).
    { cbn [serial get Serial_map]. unfold map_get.
      eapply yields_bind; [by apply yields_get_size|].
      rewrite <- (left_id_L ∅ (∪) (list_to_map entries)).
      apply (yields_emplace (serial k) (serial e) entries bss ∅).
      eapply Forall2_impl; [exact Hy|]. intros kv bs Hkv.
      apply Hkv. split; apply fresh_inits. }
    destruct (Hyield [] []) as [li Hget]. exists li.
    unfold file_in. rewrite <- (app_nil_r (_ ++ _)) at 1. exact Hget. }
  split; [exact Hset|]. split; [exact Hmap|].
  intros key x rest ->. destruct Hmap as [li ->]. cbn [fst list_to_map foldr].
  apply lookup_insert_eq.
Qed.

(** The key 1 twice: the value written first stays. *)
Lemma sequence_read_as_set_or_map_witness :
  let k := Fundamental (f_signed 4) in
  let e := Fundamental f_bool in
  pointer_free k = true
  ∧ (fits_size_t (length [3; 3; 4]) ∧ Forall (encodable k) [3; 3; 4])
  ∧ (fits_size_t (length [(1, true); (1, false)])
     ∧ Forall (encodable (StdPair k e)) [(1, true); (1, false)])
  ∧ (get (@serial zero_filled _ (StdMap k e)) ∅
       (file_in (encoding (@serial zero_filled _ (StdList (StdPair k e)))
                   [(1, true); (1, false)]))).1
    !! 1 = Some true.
Proof.
  intros k e.
  assert (H1 : fits_size_t (length [3; 3; 4])) by (by vm_compute).
  assert (H2 : Forall (encodable k) [3; 3; 4]) by (repeat constructor; lia).
  assert (H3 : fits_size_t (length [(1, true); (1, false)]))
    by (by vm_compute).
  assert (H4 : Forall (encodable (StdPair k e)) [(1, true); (1, false)]).
  { repeat constructor; cbn; lia. }
  split; [reflexivity|]. split; [by split|]. split; [by split|].
  destruct (@sequence_read_as_set_or_map zero_filled _ _ _ _ k e
              [3; 3; 4] [(1, true); (1, false)] eq_refl H1 H2 H3 H4)
    as (_ & _ & Hfirst).
  exact (Hfirst 1 true [(1, false)] eq_refl).
Defined.

(** ** Destinations that already hold something *)

Section Reuse.
Context {storage : Storage}.

Lemma yields_get_each_zip {T} (S : Serial T) (g : T → T → T)
  (v ds : list T) (bss : list (list byte)) :
  Forall2 (λ x bs, ∀ d, yields (get S d) bs (g d x)) v bss →
  length ds = length v →
  yields (get_each S ds) (mjoin bss) (zip_with g ds v).
Proof.
  intros H. revert ds.
  induction H as [|x bs v bss Hx _ IH]; intros ds Hlen.
  - destruct ds; [|done]. apply (yields_mret []).
  - destruct ds as [|d ds]; [done|]. cbn [get_each mjoin list_join zip_with].
    eapply yields_bind; [apply Hx|].
    rewrite <- (app_nil_r (mjoin bss)).
    eapply yields_bind; [apply IH; by injection Hlen|]. apply yields_mret.
Qed.

Lemma yields_list_onto {T} (S : Serial T) (ok fr : T → Prop)
  (x acc : list T) :
  roundtrips S ok fr → fr (value_init S) →
  fits_size_t (length x) → Forall ok x →
  ∃ bs, emits (put (Serial_list S) x) bs
        ∧ ∀ acc, yields (get (Serial_list S) acc) bs (acc ++ x).
Proof.
  intros HS Hinit Hfit Hx.
  destruct (roundtrips_each S ok fr x HS Hx) as (bss & He & Hy).
  exists (le_bytes 8 (Z.of_nat (length x)) ++ mjoin bss). split.
  - apply emits_wseq; [apply emits_put_size|by apply emits_put_each].
  - intros acc'. cbn [get Serial_list]. unfold list_get.
    eapply yields_bind; [by apply yields_get_size|].
    apply yields_push_back.
    eapply Forall2_impl; [exact Hy|]. intros y bs Hb. by apply Hb.
Qed.

End Reuse.

(** A non-empty [std::vector] or [std::basic_string] of a fundamental type
    replaces whatever the destination held: the decoder resizes the
    destination to the count and reads the elements over it in one go. *)
Theorem bulk_decode_overwrites {storage : Storage} {T} (f : fundamental T)
  (v d : list T) :
  v ≠ [] → fits_size_t (length v) → Forall (in_range f) v →
  (∃ li, get (serial (StdVector (Fundamental f))) d
           (file_in (encoding (serial (StdVector (Fundamental f))) v))
         = (v, open_in [] li))
  ∧ (∃ li, get (serial (StdBasicString f)) d
             (file_in (encoding (serial (StdBasicString f)) v))
           = (v, open_in [] li)).
Proof.
  intros Hne Hfit Hv.
  assert (Hlen : (0 < length v)%nat) by (destruct v; [done|simpl; lia]).
  cbn [serial].
  rewrite (emits_encoding _ _ _ (emits_vector_pod (pod_of f) v)).
  rewrite (emits_encoding _ _ _ (emits_basic_string (pod_of f) v)).
  split.
  - assert (Hy : yields (get (Serial_vector (Serial_pod (pod_of f))) d)
                   (le_bytes 8 (Z.of_nat (length v)) ++ flatten (pod_of f) v)
                   v).
    { cbn [get Serial_vector]. unfold vector_get. cbn [as_pod Serial_pod].
      eapply yields_bind; [by apply yields_get_size|].
      rewrite bool_decide_eq_false_2 by lia. cbn zeta.
      apply bulk_yields; [done..|]. by rewrite length_resize. }
    destruct (Hy [] []) as [li Hget]. exists li.
    unfold file_in. rewrite <- (app_nil_r (_ ++ _)) at 1. exact Hget.
  - assert (Hy : yields (get (Serial_basic_string (pod_of f)) d)
                   (le_bytes 8 (Z.of_nat (length v)) ++ flatten (pod_of f) v)
                   v).
    { cbn [get Serial_basic_string]. unfold basic_string_get.
      eapply yields_bind; [by apply yields_get_size|].
      rewrite bool_decide_eq_true_2 by lia. cbn zeta.
      rewrite length_resize, (Nat.mul_comm (length v)).
      apply bulk_yields; [done..|]. by rewrite length_resize. }
    destruct (Hy [] []) as [li Hget]. exists li.
    unfold file_in. rewrite <- (app_nil_r (_ ++ _)) at 1. exact Hget.
Qed.

(** Two ints read into a vector that held three. *)
Lemma bulk_decode_overwrites_witness :
  let f := f_signed 4 in
  ([7; -1] ≠ [] ∧ fits_size_t (length [7; -1]) ∧ Forall (in_range f) [7; -1])
  ∧ ∃ li, get (@serial zero_filled _ (StdVector (Fundamental f))) [1; 2; 3]
            (file_in (encoding (@serial zero_filled _
                                  (StdVector (Fundamental f))) [7; -1]))
          = ([7; -1], open_in [] li).
Proof.
  intros f.
  assert (H1 : ([7; -1] : list Z) ≠ []) by done.
  assert (H2 : fits_size_t (length [7; -1])) by (by vm_compute).
  assert (H3 : Forall (in_range f) [7; -1]) by (repeat constructor; lia).
  split; [by repeat split|].
  exact (proj1 (@bulk_decode_overwrites zero_filled _ f [7; -1] [1; 2; 3]
                  H1 H2 H3)).
Defined.

(** A [std::vector] of [std::list]s read into a vector that already holds
    lists: the vector is resized to the count, and every list that stays
    keeps its elements and gets the decoded ones appended.  Only positions
    that the resize adds start empty. *)
Theorem vector_of_lists_accumulates {storage : Storage} {T} (e : shape T)
  (v d : list (list T)) :
  v ≠ [] → encodable (StdVector (StdList e)) v →
  ∃ li, get (serial (StdVector (StdList e))) d
          (file_in (encoding (serial (StdVector (StdList e))) v))
        = (zip_with (++) (resize (length v) [] d) v, open_in [] li).
Proof.
  intros Hne [Hfit Hv].
  assert (Hlen : (0 < length v)%nat) by (destruct v; [done|simpl; lia]).
  destruct (Forall_exists_Forall2
              (λ x bs, emits (put (serial (StdList e)) x) bs
                       ∧ ∀ acc, yields (get (serial (StdList e)) acc) bs
                                  (acc ++ x)) v)
    as [bss Hbss].
  { eapply Forall_impl; [exact Hv|]. intros x [Hfx Hx]. cbn [serial].
    apply (yields_list_onto (serial e) (encodable e) (fresh e) x []);
      [apply roundtrips_serial|apply fresh_inits|done..]. }
  assert (He : emits (put (serial (StdVector (StdList e))) v)
                 (le_bytes 8 (Z.of_nat (length v)) ++ mjoin bss)).
  { cbn [serial put Serial_vector]. unfold vector_put.
    cbn [as_pod Serial_list].
    apply emits_wseq; [apply emits_put_size|]. apply emits_put_each.
    eapply Forall2_impl; [exact Hbss|]. by intros x bs [? _]. }
  rewrite (emits_encoding _ _ _ He).
  assert (Hy : yields (get (serial (StdVector (StdList e))) d)
                 (le_bytes 8 (Z.of_nat (length v)) ++ mjoin bss)
                 (zip_with (++) (resize (length v) [] d) v)).
  { cbn [serial get Serial_vector]. unfold vector_get.
    cbn [as_pod Serial_list value_init].
    eapply yields_bind; [by apply yields_get_size|].
    rewrite bool_decide_eq_false_2 by lia. cbn zeta.
    apply (yields_get_each_zip _ (λ acc x, acc ++ x)).
    - eapply Forall2_impl; [exact Hbss|]. by intros x bs [_ ?].
    - by rewrite length_resize. }
  destruct (Hy [] []) as [li Hget]. exists li.
  unfold file_in. rewrite <- (app_nil_r (_ ++ _)) at 1. exact Hget.
Qed.

(** Two lists read into a vector that held one list with the element 9. *)
Lemma vector_of_lists_accumulates_witness :
  let e := Fundamental (f_signed 4) in
  ([[1]; [2; 3]] ≠ [] ∧ encodable (StdVector (StdList e)) [[1]; [2; 3]])
  ∧ ∃ li, get (@serial zero_filled _ (StdVector (StdList e))) [[9]]
            (file_in (encoding (@serial zero_filled _
                                  (StdVector (StdList e))) [[1]; [2; 3]]))
          = ([[9; 1]; [2; 3]], open_in [] li).
Proof.
  intros e.
  assert (H1 : ([[1]; [2; 3]] : list (list Z)) ≠ []) by done.
  assert (H2 : encodable (StdVector (StdList e)) [[1]; [2; 3]]).
  { cbn. split; [by vm_compute|].
    repeat constructor; try (by vm_compute); lia. }
  split; [by split|].
  exact (@vector_of_lists_accumulates zero_filled _ e [[1]; [2; 3]] [[9]]
           H1 H2).
Defined.

(** ** Sizes on the wire *)

(** A [std::vector] or [std::basic_string] of [n] elements of a
    fundamental type takes [8 + n * sizeof(T)] bytes in the file, and a
    [std::array<T, N>] of such elements [N * sizeof(T)] bytes: no count
    before an array, no padding between elements. *)
Theorem bulk_wire_size {storage : Storage} {T} (f : fundamental T)
  (v : list T) (N : nat) :
  length (encoding (serial (StdVector (Fundamental f))) v)
  = (8 + length v * sizeof (pod_of f))%nat
  ∧ length (encoding (serial (StdBasicString f)) v)
    = (8 + length v * sizeof (pod_of f))%nat
  ∧ (length v = N →
     length (encoding (serial (StdArray (Fundamental f) N)) v)
     = (N * sizeof (pod_of f))%nat).
Proof.
  cbn [serial].
  rewrite (emits_encoding _ _ _ (emits_vector_pod (pod_of f) v)).
  rewrite (emits_encoding _ _ _ (emits_basic_string (pod_of f) v)).
  rewrite length_app, le_bytes_length, length_flatten.
  split; [lia|]. split; [lia|]. intros HN.
  rewrite (emits_encoding _ _ (flatten (pod_of f) v)).
  - rewrite length_flatten. lia.
  - cbn [put Serial_array]. unfold array_put. cbn [as_pod Serial_pod].
    case_bool_decide; [apply emits_wwrite|].
    destruct v; [apply emits_wret|simpl in HN; lia].
Qed.

Lemma bulk_wire_size_witness :
  length [5; 6; 7] = 3%nat
  ∧ length (encoding (@serial zero_filled _
                        (StdArray (Fundamental (f_signed 4)) 3)) [5; 6; 7])
    = (3 * 4)%nat.
Proof.
  split; [reflexivity|].
  exact (proj2 (proj2 (@bulk_wire_size zero_filled _ (f_signed 4)
                         [5; 6; 7] 3)) eq_refl).
Defined.

(** A present [std::optional], [std::unique_ptr] or [std::shared_ptr]
    replaces what the destination held: the decoder assigns a new [T] and
    decodes into that, so nothing of an old payload is left, whatever the
    payload type does with its own destination. *)
Theorem present_value_replaces {storage : Storage} {T} (e : shape T)
  (x : T) (d : option T) :
  encodable e x →
  (∃ li, get (serial (StdOptional e)) d
           (file_in (encoding (serial (StdOptional e)) (Some x)))
         = (Some x, open_in [] li))
  ∧ (∃ li, get (serial (StdUniquePtr e)) d
             (file_in (encoding (serial (StdUniquePtr e)) (Some x)))
           = (Some x, open_in [] li))
  ∧ (∃ li, get (serial (StdSharedPtr e)) d
             (file_in (encoding (serial (StdSharedPtr e)) (Some x)))
           = (Some x, open_in [] li)).
Proof.
  intros Hx. destruct (roundtrips_serial e x Hx) as (bs & He & Hy).
  pose proof (present_roundtrip (serial e) x d bs He
                (Hy _ (proj1 (fresh_inits e)))) as [Hemit Hyield].
  assert (Henc : ∀ S' : Serial (option T),
            (∀ s, put S' (Some x) s
                  = (put Serial_bool true ⨾ deref (Some x) (put (serial e)))%W s) →
            encoding S' (Some x) = x01 :: bs).
  { intros S' HS'. apply emits_encoding. by eapply emits_ext. }
  cbn [serial].
  rewrite !Henc by done.
  destruct (Hyield [] []) as [li Hget].
  repeat split; exists li; unfold file_in;
    rewrite <- (app_nil_r (x01 :: bs)) at 1; exact Hget.
Qed.

(** An optional list that held 9 takes the list 1, not 9 and 1. *)
Lemma present_value_replaces_witness :
  let e := StdList (Fundamental (f_signed 4)) in
  encodable e [1]
  ∧ ∃ li, get (@serial zero_filled _ (StdOptional e)) (Some [9])
            (file_in (encoding (@serial zero_filled _ (StdOptional e))
                        (Some [1])))
          = (Some [1], open_in [] li).
Proof.
  intros e.
  assert (Hx : encodable e [1]).
  { cbn. split; [by vm_compute|]. repeat constructor; lia. }
  split; [exact Hx|].
  exact (proj1 (@present_value_replaces zero_filled _ e [1] (Some [9]) Hx)).
Defined.

(** ** The user-defined type of the demonstration *)

Section CustomProperties.
Context {storage : Storage}.





End CustomProperties.



(** ** What the bulk path saves *)

Lemma write_each_open {T} (P : Pod T) (v : list T) pre l :
  foldl (λ s' x, stream_write (repr P x) s') (open_out pre l) v
  = open_out (pre ++ flatten P v)
      (l ++ ((λ x, (length (repr P x), length (repr P x))) <$> v)).
Proof.
  revert pre l. induction v as [|x v IH]; intros pre l.
  - cbn. by rewrite !app_nil_r.
  - cbn [foldl]. rewrite stream_write_open, IH.
    change (flatten P (x :: v)) with (repr P x ++ flatten P v).
    cbn [fmap list_fmap]. by rewrite <- !app_assoc.
Qed.

(** For a [std::vector] of [n > 0] elements of a fundamental type the
    encoder asks the file twice, once for the count and once for all
    elements, and the decoder likewise; the element-wise loop that
    [std::list] and [std::deque] use asks [n + 1] times for the same
    bytes. *)
Theorem bulk_path_channel_calls {storage : Storage} {T} (f : fundamental T)
  (v d : list T) (pre rest : list byte) (lo li : chanlog) :
  v ≠ [] → fits_size_t (length v) →
  let n := length v in
  let size := sizeof (pod_of f) in
  let enc := le_bytes 8 (Z.of_nat n) ++ flatten (pod_of f) v in
  put (serial (StdVector (Fundamental f))) v (open_out pre lo)
  = Done (open_out (pre ++ enc) (lo ++ [(8, 8); (size * n, size * n)]%nat))
  ∧ (get (serial (StdVector (Fundamental f))) d (open_in (enc ++ rest) li)).2
    = open_in rest (li ++ [(8, 8); (size * n, size * n)]%nat)
  ∧ ∃ calls,
      put (serial (StdList (Fundamental f))) v (open_out pre lo)
      = Done (open_out (pre ++ enc) (lo ++ calls))
      ∧ length calls = (n + 1)%nat.
Proof.
  intros Hne Hfit n size enc. subst n size enc.
  assert (Hlen : (0 < length v)%nat) by (destruct v; [done|simpl; lia]).
  repeat apply conj.
  - cbn [serial put Serial_vector]. unfold vector_put, wseq.
    rewrite put_size_open. cbn [as_pod Serial_pod].
    rewrite bool_decide_eq_true_2 by done. unfold wwrite.
    rewrite stream_write_open, length_flatten.
    by rewrite <- !app_assoc.
  - cbn [serial get Serial_vector]. unfold vector_get, mbind, reader_bind.
    rewrite <- app_assoc, get_size_open by done.
    rewrite bool_decide_eq_false_2 by lia. cbn [as_pod Serial_pod]. cbn zeta.
    unfold mret, reader_ret, rread.
    rewrite stream_read_open.
    + cbn [snd]. by rewrite <- app_assoc.
    + apply length_flatten.
    + rewrite length_flatten, length_resize. lia.
  - eexists. split.
    + cbn [serial put Serial_list]. unfold list_put, wseq.
      rewrite put_size_open, put_each_pod, write_each_open.
      by rewrite <- !app_assoc.
    + cbn [length app]. rewrite length_fmap. lia.
Qed.

Lemma bulk_path_channel_calls_witness :
  let f := f_signed 4 in
  (([5; 6; 7] : list Z) ≠ [] ∧ fits_size_t (length [5; 6; 7]))
  ∧ olog_of (put (@serial zero_filled _ (StdVector (Fundamental f)))
               [5; 6; 7] (open_out [] []))
    = [(8, 8); (12, 12)]%nat.
Proof.
  intros f.
  assert (H1 : ([5; 6; 7] : list Z) ≠ []) by done.
  assert (H2 : fits_size_t (length [5; 6; 7])) by (by vm_compute).
  split; [by split|].
  destruct (@bulk_path_channel_calls zero_filled _ f [5; 6; 7] [] [] [] [] []
              H1 H2) as (Hput & _).
  cbv zeta in Hput. rewrite Hput. reflexivity.
Defined.
